(** * FloopyBird: the game logic of [src/hooks/useGameLogic.ts]

    A shallow embedding of the hook [useGameLogic] and of the canvas the
    [Game] component hands to it, followed by the properties of the
    frame loop, the collision test, the spawner and the input handlers.

    Modelling choices.
    - A JavaScript [number] is an exact rational in lowest terms ([Qc]):
      the arithmetic of the source is kept as written, rounding of IEEE
      doubles is not modelled.  [Date.now()] and the two score counters
      are integers ([Z]).
    - React state ([useState]) and refs ([useRef]) are the fields of one
      record [Game]; a handler is a function [Game -> Game].  The values
      [gameState] and [score] that [gameLoop] reads are those of the
      render that created the callback, that is the state at the start of
      the frame ([useCallback] has both in its dependency list); updater
      functions passed to a setter see the pending value.
    - [Date.now()] and [Math.random()] are arguments of the frame.
    - Drawing, the scheduling handle [animationFrameRef] and the three
      one-shot sound effects are left out: nothing below reads them.  The
      looping background track is kept as the flag [bgmPlaying]. *)

From Stdlib Require Import PrimFloat.
From Stdlib Require Import ZArith QArith Qcanon Lqa List Bool Lia String.
Import ListNotations.

Open Scope Qc_scope.

(** ** Numbers *)

Definition num (q : Q) : Qc := Q2Qc q.
Arguments num q%_Q.

Definition num_lt (a b : Qc) : bool :=
  match a ?= b with Lt => true | _ => false end.
Definition num_gt (a b : Qc) : bool := num_lt b a.
Definition num_le (a b : Qc) : bool :=
  match a ?= b with Gt => false | _ => true end.
Definition num_ge (a b : Qc) : bool := num_le b a.

Declare Scope num_scope.
Delimit Scope num_scope with num.
Infix "<?" := num_lt (at level 70, no associativity) : num_scope.
Infix ">?" := num_gt (at level 70, no associativity) : num_scope.
Infix "<=?" := num_le (at level 70, no associativity) : num_scope.
Infix ">=?" := num_ge (at level 70, no associativity) : num_scope.
Open Scope num_scope.

(** ** Data model (lines 3-20 of the hook) *)

Record Bird : Set := mkBird
  { y : Qc;
    velocity : Qc;
    rotation : Qc }.

Record Pipe : Set := mkPipe
  { x : Qc;
    topHeight : Qc;
    passed : bool }.

Definition GRAVITY : Qc := num 0.4.
Definition JUMP_FORCE : Qc := num (-8).
Definition BIRD_SIZE : Qc := num 30.
Definition PIPE_WIDTH : Qc := num 60.
Definition PIPE_GAP : Qc := num 170.
Definition PIPE_SPEED : Qc := num 2.5.

(** The [<canvas>] element behind [canvasRef]; only its two size
    attributes are read. *)
Record Canvas : Set := mkCanvas
  { width : Qc;
    height : Qc }.

(** [<canvas width={400} height={600}>] of the [Game] component. *)
Definition canvas : Canvas := {| width := num 400; height := num 600 |}.

Inductive GameState : Set := idle | playing | gameOver.

Record Game : Set := mkGame
  { gameState : GameState;
    score : Z;
    highScore : Z;
    isMuted : bool;
    birdRef : Bird;
    pipesRef : list Pipe;
    lastPipeSpawnRef : Z;
    bgmPlaying : bool }.

(** The state of the first render: [useState] and [useRef] initial
    values; the audio elements exist and none is playing. *)
Definition initial : Game :=
  {| gameState := idle;
     score := 0;
     highScore := 0;
     isMuted := false;
     birdRef := {| y := num 300; velocity := num 0; rotation := num 0 |};
     pipesRef := [];
     lastPipeSpawnRef := 0;
     bgmPlaying := false |}.

(** ** toggleMute (lines 77-89) *)

Definition toggleMute (g : Game) : Game :=
  let newMuted := negb (isMuted g) in
  {| gameState := gameState g;
     score := score g;
     highScore := highScore g;
     isMuted := newMuted;
     birdRef := birdRef g;
     pipesRef := pipesRef g;
     lastPipeSpawnRef := lastPipeSpawnRef g;
     bgmPlaying := if newMuted then false else true |}.

(** ** generatePipe (lines 91-101) *)

Definition generatePipe (cv : Canvas) (random : Qc) : Pipe :=
  let minHeight := num 100 in
  let maxHeight := height cv - PIPE_GAP - minHeight in
  let topHeight := random * (maxHeight - minHeight) + minHeight in
  {| x := width cv; topHeight := topHeight; passed := false |}.

(** ** checkCollision (lines 103-140) *)

Record Box : Set := mkBox
  { top : Qc;
    bottom : Qc;
    left : Qc;
    right : Qc }.

Definition birdBox (bird : Bird) : Box :=
  {| top := y bird + num 5;
     bottom := y bird + BIRD_SIZE - num 5;
     left := num 50 + num 5;
     right := num 50 + BIRD_SIZE - num 5 |}.

Definition topPipeBox (pipe : Pipe) : Box :=
  {| top := num 0;
     bottom := topHeight pipe;
     left := x pipe;
     right := x pipe + PIPE_WIDTH |}.

Definition bottomPipeBox (cv : Canvas) (pipe : Pipe) : Box :=
  {| top := topHeight pipe + PIPE_GAP;
     bottom := height cv;
     left := x pipe;
     right := x pipe + PIPE_WIDTH |}.

Definition collidesWithPipe (box pipeBox : Box) : bool :=
  negb ((right box <? left pipeBox)
        || (left box >? right pipeBox)
        || (bottom box <? top pipeBox)
        || (top box >? bottom pipeBox)).

Definition checkCollision (cv : Canvas) (bird : Bird) (pipe : Pipe) : bool :=
  collidesWithPipe (birdBox bird) (topPipeBox pipe)
  || collidesWithPipe (birdBox bird) (bottomPipeBox cv pipe)
  || (y bird <=? num 0)
  || (y bird + BIRD_SIZE >=? height cv).

(** ** gameLoop (lines 182-259), one block of the body per definition *)

(** Lines 189-194: gravity, then position, then the smoothed tilt. *)
Definition updateBird (bird : Bird) : Bird :=
  let velocity' := velocity bird + GRAVITY in
  let y' := y bird + velocity' in
  let targetRotation := velocity' * num 0.04 in
  {| y := y';
     velocity := velocity';
     rotation := rotation bird + (targetRotation - rotation bird) * num 0.1 |}.

(** Lines 197-201: the spawn check; returns the collection and the
    timestamp of the last spawn. *)
Definition spawnPipe (cv : Canvas) (now : Z) (random : Qc)
    (pipes : list Pipe) (lastPipeSpawn : Z) : list Pipe * Z :=
  if (now - lastPipeSpawn >? 1800)%Z
  then (pipes ++ [generatePipe cv random], now)
  else (pipes, lastPipeSpawn).

(** Line 203: the pruning filter. *)
Definition onScreen (pipe : Pipe) : bool := x pipe >? - PIPE_WIDTH.

(** Lines 205-211: the body of the [forEach]; the boolean tells whether
    [setScore(prev => prev + 1)] was called for this pipe. *)
Definition scrollPipe (pipe : Pipe) : Pipe * bool :=
  let x' := x pipe - PIPE_SPEED in
  if negb (passed pipe) && (x' + PIPE_WIDTH <? num 50)
  then ({| x := x'; topHeight := topHeight pipe; passed := true |}, true)
  else ({| x := x'; topHeight := topHeight pipe; passed := passed pipe |}, false).

(** Lines 204-212: the [forEach], threading the pending score. *)
Fixpoint forEachPipe (pipes : list Pipe) (pending : Z) : list Pipe * Z :=
  match pipes with
  | [] => ([], pending)
  | pipe :: rest =>
      let (pipe', scored) := scrollPipe pipe in
      let (rest', pending') :=
        forEachPipe rest (if scored then pending + 1 else pending)%Z in
      (pipe' :: rest', pending')
  end.

Definition gameLoop (cv : Canvas) (now : Z) (random : Qc) (g : Game) : Game :=
  match gameState g with
  | playing =>
      let bird := updateBird (birdRef g) in
      let (spawned, lastPipeSpawn) :=
        spawnPipe cv now random (pipesRef g) (lastPipeSpawnRef g) in
      let (pipes, pending) :=
        forEachPipe (filter onScreen spawned) (score g) in
      if existsb (checkCollision cv bird) pipes
      then {| gameState := gameOver;
              score := pending;
              highScore := Z.max (highScore g) (score g);
              isMuted := isMuted g;
              birdRef := bird;
              pipesRef := pipes;
              lastPipeSpawnRef := lastPipeSpawn;
              bgmPlaying := bgmPlaying g |}
      else {| gameState := playing;
              score := pending;
              highScore := highScore g;
              isMuted := isMuted g;
              birdRef := bird;
              pipesRef := pipes;
              lastPipeSpawnRef := lastPipeSpawn;
              bgmPlaying := bgmPlaying g |}
  | _ => g
  end.

(** ** startGame (lines 272-283) *)

Definition startGame (now : Z) (g : Game) : Game :=
  {| gameState := playing;
     score := 0;
     highScore := highScore g;
     isMuted := isMuted g;
     birdRef := {| y := num 300; velocity := num 0; rotation := num 0 |};
     pipesRef := [];
     lastPipeSpawnRef := now;
     bgmPlaying := if negb (isMuted g) then true else bgmPlaying g |}.

(** ** handleClick and handleKeyPress (lines 285-296) *)

Definition handleClick (g : Game) : Game :=
  match gameState g with
  | playing =>
      {| gameState := gameState g;
         score := score g;
         highScore := highScore g;
         isMuted := isMuted g;
         birdRef := {| y := y (birdRef g);
                       velocity := JUMP_FORCE;
                       rotation := rotation (birdRef g) |};
         pipesRef := pipesRef g;
         lastPipeSpawnRef := lastPipeSpawnRef g;
         bgmPlaying := bgmPlaying g |}
  | _ => g
  end.

Definition handleKeyPress (code : string) (g : Game) : Game :=
  if String.eqb code "Space" then handleClick g else g.

(** ** Sessions: what the page can do to the hook *)

Inductive Event : Set :=
  | Frame (now : Z) (random : Qc)
  | Click
  | KeyDown (code : string)
  | Start (now : Z)
  | ToggleMute.

Definition step (cv : Canvas) (g : Game) (e : Event) : Game :=
  match e with
  | Frame now random => gameLoop cv now random g
  | Click => handleClick g
  | KeyDown code => handleKeyPress code g
  | Start now => startGame now g
  | ToggleMute => toggleMute g
  end.

Definition run (cv : Canvas) (events : list Event) (g : Game) : Game :=
  fold_left (step cv) events g.

(** [Math.random()] lies in [0, 1). *)
Definition validEvent (e : Event) : bool :=
  match e with
  | Frame _ random => (num 0 <=? random) && (random <? num 1)
  | _ => true
  end.

Inductive reachable (cv : Canvas) : Game -> Prop :=
  | reach_initial : reachable cv initial
  | reach_step g e :
      reachable cv g -> validEvent e = true -> reachable cv (step cv g e).

(** ** Vocabulary of the properties *)

(** The square the bird is drawn in: side [BIRD_SIZE], its left edge at
    the fixed horizontal position 50, its top edge at [y]. *)
Definition birdSquare (bird : Bird) : Box :=
  {| top := y bird;
     bottom := y bird + BIRD_SIZE;
     left := num 50;
     right := num 50 + BIRD_SIZE |}.

(** A box shrunk by [margin] on its four sides. *)
Definition inset (margin : Qc) (box : Box) : Box :=
  {| top := top box + margin;
     bottom := bottom box - margin;
     left := left box + margin;
     right := right box - margin |}.

(** Closed intervals [lo1, hi1] and [lo2, hi2] meet. *)
Definition axisOverlap (lo1 hi1 lo2 hi2 : Qc) : Prop :=
  lo2 <= hi1 /\ lo1 <= hi2.

(** Two axis-aligned boxes overlap when their projections meet on the
    horizontal and on the vertical axis. *)
Definition boxesOverlap (a b : Box) : Prop :=
  axisOverlap (left a) (right a) (left b) (right b)
  /\ axisOverlap (top a) (bottom a) (top b) (bottom b).

(** The unshrunk bird crosses the top or the bottom of the canvas. *)
Definition outOfBounds (cv : Canvas) (bird : Bird) : Prop :=
  y bird <= num 0 \/ height cv <= y bird + BIRD_SIZE.

(** What one pass of the [forEach] body does to a pipe, and whether it
    scores. *)
Definition scrolled (pipe : Pipe) : Pipe := fst (scrollPipe pipe).
Definition scores (pipe : Pipe) : bool := snd (scrollPipe pipe).

(** The collection after the spawn check and the pruning filter of a
    frame, before the [forEach]. *)
Definition keptPipes (cv : Canvas) (now : Z) (random : Qc) (g : Game)
    : list Pipe :=
  filter onScreen
    (fst (spawnPipe cv now random (pipesRef g) (lastPipeSpawnRef g))).

(** The result of the [some] of line 214 in a frame started from [g]. *)
Definition frameCollides (cv : Canvas) (now : Z) (random : Qc) (g : Game)
    : bool :=
  existsb (checkCollision cv (updateBird (birdRef g)))
    (map scrolled (keptPipes cv now random g)).

(** The pipe after [n] frames in the collection. *)
Definition pipeAfter (n : nat) (pipe : Pipe) : Pipe :=
  Nat.iter n scrolled pipe.

(** Lines 203-212 as a function of the collection alone: pruning, then
    the [forEach]. *)
Definition pruneAndScroll (pipes : list Pipe) : list Pipe :=
  map scrolled (filter onScreen pipes).

(** [sub] is [full] with some elements dropped, the others in their
    order. *)
Inductive subsequence : list Pipe -> list Pipe -> Prop :=
  | subsequence_nil : subsequence [] []
  | subsequence_keep pipe sub full :
      subsequence sub full -> subsequence (pipe :: sub) (pipe :: full)
  | subsequence_drop pipe sub full :
      subsequence sub full -> subsequence sub (pipe :: full).

(** [n] frames in a row, [dt] milliseconds apart, the first at time
    [now]; every call of [Math.random()] returns [random]. *)
Fixpoint frames (n : nat) (now dt : Z) (random : Qc) : list Event :=
  match n with
  | O => []
  | S k => Frame now random :: frames k (now + dt)%Z dt random
  end.

(** A click followed by [n] frames. *)
Definition flap (n : nat) (now dt : Z) (random : Qc) : list Event :=
  Click :: frames n now dt random.

(** [k] times a click followed by [n] frames. *)
Fixpoint flaps (k n : nat) (now dt : Z) (random : Qc) : list Event :=
  match k with
  | O => []
  | S k' =>
      flap n now dt random
      ++ flaps k' n (now + Z.of_nat n * dt)%Z dt random
  end.

(** What the passed flag says about the position of a pipe. *)
Definition passedBehind (pipe : Pipe) : Prop :=
  passed pipe = true -> x pipe + PIPE_WIDTH < num 50.
Definition unpassedAhead (pipe : Pipe) : Prop :=
  passed pipe = false -> num 50 <= x pipe + PIPE_WIDTH.

(** A session in which the first frame comes two seconds after the
    start, so that it spawns a pipe, the player clicks every 39 frames
    and stays level, and the pipe, with its gap from 192 to 362, goes by:
    166 frames, 16 ms apart. *)
Definition passingSession : list Event :=
  Start 0 :: flaps 4 39 2000 16 (num 0.4)
  ++ flap 10 (2000 + 156 * 16) 16 (num 0.4).

(** A session in which the player never clicks: [n] frames, 16 ms
    apart, after the start. *)
Definition idleSession (n : nat) : list Event :=
  Start 0 :: frames n 16 16 (num 0.5).

(** A session at 52 ms per frame, 198 frames long.  A pipe is spawned
    every 35 frames: the first in frame 35 with its gap from 192 to 362,
    the second in frame 70 with its gap from 100 to 270, 87.5 to the
    right of the first.  The player clicks every 39 frames and stays
    between 224 and 300. *)
Definition lateScoreSession : list Event :=
  Start 0 :: flap 39 52 52 (num 0.4)
  ++ flap 30 (40 * 52) 52 (num 0.4) ++ frames 9 (70 * 52) 52 (num 0)
  ++ flaps 3 39 (79 * 52) 52 (num 0.4)
  ++ flap 3 (196 * 52) 52 (num 0.4).

(** The fields of a state that the overlays show, with the number of
    pipes. *)
Definition summary (g : Game) : GameState * Z * Z * nat :=
  (gameState g, score g, highScore g, List.length (pipesRef g)).

(** Lines 189-190 on IEEE doubles, as JavaScript computes them: the
    new velocity and the new position of a frame. *)
#[warnings="-inexact-float"]
Definition gravityStep64 (y velocity : PrimFloat.float)
    : PrimFloat.float * PrimFloat.float :=
  let velocity' := PrimFloat.add velocity 0.4%float in
  (PrimFloat.add y velocity', velocity').

(** ** Vocabulary of the session properties *)

Definition isStart (e : Event) : bool :=
  match e with Start _ => true | _ => false end.

Definition isToggleMute (e : Event) : bool :=
  match e with ToggleMute => true | _ => false end.

(** The part of the state the game is played on: everything but the
    high score, the mute flag and the background track. *)
Definition physics (g : Game)
    : GameState * Z * Bird * list Pipe * Z :=
  (gameState g, score g, birdRef g, pipesRef g, lastPipeSpawnRef g).

(** The track plays exactly when the sound is on. *)
Definition audioSettled (g : Game) : Prop :=
  bgmPlaying g = negb (isMuted g).


(** The pipes are listed from left to right. *)
Fixpoint leftToRight (pipes : list Pipe) : Prop :=
  match pipes with
  | [] => True
  | pipe :: rest => Forall (fun other => x pipe < x other) rest /\ leftToRight rest
  end.

(** Where a pipe of the 400 x 600 canvas can be, and how tall its top
    segment is. *)
Definition pipeOnCanvas (pipe : Pipe) : Prop :=
  num 100 <= topHeight pipe /\ topHeight pipe <= num 330
  /\ num (-62.5) < x pipe /\ x pipe <= num 397.5.

(** A number of frames as a JavaScript number. *)
Definition count (n : nat) : Qc := num (inject_Z (Z.of_nat n)).

(** A pipe of a session on the 400 x 600 canvas: some spawned pipe, a
    number of frames later. *)
Definition spawnedAgo (pipe : Pipe) (n : nat) : Prop :=
  exists random,
    num 0 <= random /\ random < num 1
    /\ pipe = pipeAfter n (generatePipe canvas random).


(** What the game state says about the bird and the pipes. *)
Definition consistent (cv : Canvas) (g : Game) : Prop :=
  (gameState g = idle ->
   pipesRef g = [] /\ birdRef g = birdRef initial /\ score g = 0%Z)
  /\ (gameState g = playing ->
      Forall (fun pipe => checkCollision cv (birdRef g) pipe = false)
        (pipesRef g))
  /\ (gameState g = gameOver ->
      Exists (fun pipe => checkCollision cv (birdRef g) pipe = true)
        (pipesRef g)).

(** The number of pipes of the collection whose passed flag is set. *)
Definition passedCount (pipes : list Pipe) : Z :=
  Z.of_nat (List.length (filter passed pipes)).

(** ** The page: the [Game] component that uses the hook

    The component keeps a state of its own, [const [isMuted, setIsMuted]
    = useState(false)], reads it for the icon of the mute button and
    never sets it; of the hook it takes [gameState], [score],
    [highScore] and the four handlers, not [isMuted]. *)

Inductive Icon : Set := Volume2 | VolumeX.

Inductive Overlay : Set :=
  | NoOverlay
  | StartOverlay
  | GameOverOverlay (shownScore : Z).

Record Screen : Set := mkScreen
  { overlay : Overlay;
    muteIcon : Icon;
    scoreLabel : Z;
    highScoreLabel : Z }.

Record Page : Set := mkPage
  { hook : Game;
    localMuted : bool }.

Definition initialPage : Page := {| hook := initial; localMuted := false |}.

(** The JSX the component returns. *)
Definition render (p : Page) : Screen :=
  {| overlay := match gameState (hook p) with
                | idle => StartOverlay
                | gameOver => GameOverOverlay (score (hook p))
                | playing => NoOverlay
                end;
     muteIcon := if localMuted p then VolumeX else Volume2;
     scoreLabel := score (hook p);
     highScoreLabel := highScore (hook p) |}.

(** The buttons "Start Game" and "Play Again" exist only inside their
    overlays; the canvas, the window's key listener and the mute button
    are always there. *)
Definition offered (p : Page) (e : Event) : bool :=
  match e, overlay (render p) with
  | Start _, NoOverlay => false
  | _, _ => true
  end.

(** No handler of the component touches its own state. *)
Definition pageStep (cv : Canvas) (p : Page) (e : Event) : Page :=
  {| hook := step cv (hook p) e; localMuted := localMuted p |}.

Inductive pageReachable (cv : Canvas) : Page -> Prop :=
  | page_initial : pageReachable cv initialPage
  | page_step p e :
      pageReachable cv p -> validEvent e = true -> offered p e = true ->
      pageReachable cv (pageStep cv p e).

(** ** Sound effects: [playSound] (lines 63-75) and its callers

    [playSound] reads the [isMuted] of the render that defined it.
    [handleClick] is defined anew by every render, so its [playSound] has
    the current flag.  [gameLoop] is memoised on [gameState] and [score]
    (line 259): its [playSound] has the flag of the last render in which
    one of the two changed. *)

Inductive Cue : Set := jumpCue | scoreCue | hitCue.

(** The cues one call plays, given the flag in its closure. *)
Definition playSound (muted : bool) (type : Cue) : list Cue :=
  if negb muted then [type] else [].

(** Line 288. *)
Definition handleClickCues (g : Game) : list Cue :=
  match gameState g with
  | playing => playSound (isMuted g) jumpCue
  | _ => []
  end.

Definition handleKeyPressCues (code : string) (g : Game) : list Cue :=
  if String.eqb code "Space" then handleClickCues g else [].

(** Line 210, over the [forEach]. *)
Fixpoint forEachCues (muted : bool) (pipes : list Pipe) : list Cue :=
  match pipes with
  | [] => []
  | pipe :: rest =>
      (if snd (scrollPipe pipe) then playSound muted scoreCue else [])
      ++ forEachCues muted rest
  end.

(** Lines 210 and 215 in a frame. *)
Definition gameLoopCues (muted : bool) (cv : Canvas) (now : Z) (random : Qc)
    (g : Game) : list Cue :=
  match gameState g with
  | playing =>
      let bird := updateBird (birdRef g) in
      let (spawned, _) :=
        spawnPipe cv now random (pipesRef g) (lastPipeSpawnRef g) in
      let kept := filter onScreen spawned in
      let (pipes, _) := forEachPipe kept (score g) in
      forEachCues muted kept
      ++ (if existsb (checkCollision cv bird) pipes
          then playSound muted hitCue else [])
  | _ => []
  end.

Definition sameState (a b : GameState) : bool :=
  match a, b with
  | idle, idle | playing, playing | gameOver, gameOver => true
  | _, _ => false
  end.

(** The dependency list of [gameLoop] differs between two renders. *)
Definition depsChanged (g g' : Game) : bool :=
  negb (sameState (gameState g) (gameState g'))
  || negb (score g =? score g')%Z.

(** The hook with the mute flag held by the memoised [gameLoop] and the
    cues played so far. *)
Record Hook : Set := mkHook
  { game : Game;
    loopMuted : bool;
    played : list Cue }.

Definition initialHook : Hook :=
  {| game := initial; loopMuted := false; played := [] |}.

Definition hookStep (cv : Canvas) (h : Hook) (e : Event) : Hook :=
  let g' := step cv (game h) e in
  {| game := g';
     loopMuted := if depsChanged (game h) g' then isMuted g' else loopMuted h;
     played :=
       played h
       ++ match e with
          | Frame now random => gameLoopCues (loopMuted h) cv now random (game h)
          | Click => handleClickCues (game h)
          | KeyDown code => handleKeyPressCues code (game h)
          | Start _ | ToggleMute => []
          end |}.

Definition hookRun (cv : Canvas) (events : list Event) (h : Hook) : Hook :=
  fold_left (hookStep cv) events h.

(** A run left to itself for 36 frames, with a pipe on screen since the
    first one: the bird is about to fall out of the canvas. *)
Definition fallingSession : list Event :=
  Start 0 :: frames 36 2000 16 (num 0.4).

(** * Properties *)

(** ** Comparisons and linear arithmetic on numbers *)

Lemma num_lt_iff a b : (a <? b) = true <-> a < b.
Proof.
  unfold num_lt. rewrite Qclt_alt. destruct (a ?= b); intuition congruence.
Qed.

Lemma num_le_iff a b : (a <=? b) = true <-> a <= b.
Proof.
  unfold num_le. rewrite Qcle_alt. destruct (a ?= b); intuition congruence.
Qed.

Lemma num_gt_iff a b : (a >? b) = true <-> b < a.
Proof. apply num_lt_iff. Qed.

Lemma num_ge_iff a b : (a >=? b) = true <-> b <= a.
Proof. apply num_le_iff. Qed.

Lemma num_lt_false a b : (a <? b) = false <-> b <= a.
Proof.
  rewrite <- not_true_iff_false, num_lt_iff. split.
  - apply Qcnot_lt_le.
  - intros H. now apply Qcle_not_lt.
Qed.

Lemma num_le_false a b : (a <=? b) = false <-> b < a.
Proof.
  rewrite <- not_true_iff_false, num_le_iff. split.
  - apply Qcnot_le_lt.
  - intros H. now apply Qclt_not_le.
Qed.

Lemma num_gt_false a b : (a >? b) = false <-> a <= b.
Proof. apply num_lt_false. Qed.

Lemma num_ge_false a b : (a >=? b) = false <-> a < b.
Proof. apply num_le_false. Qed.

Lemma Q_eq_Qeq (a b : Q) : a = b -> (a == b)%Q.
Proof. intros ->. reflexivity. Qed.

(** Goals and hypotheses over [Qc] are sent to [Q], where [lra] decides
    linear arithmetic. *)
Ltac to_Q :=
  unfold GRAVITY, JUMP_FORCE, BIRD_SIZE, PIPE_WIDTH, PIPE_GAP, PIPE_SPEED,
    num in *;
  repeat match goal with
  | H : @eq Qc _ _ |- _ => apply (f_equal this), Q_eq_Qeq in H
  | |- @eq Qc _ _ => apply Qc_is_canon
  end;
  unfold Qclt, Qcle, Qcminus, Qcplus, Qcmult, Qcopp, Q2Qc in *;
  cbn [this] in *;
  repeat rewrite ?Qred_correct in *.

Ltac num_lra := to_Q; lra.

(** Boolean tests of the source become order facts. *)
Ltac num_reflect :=
  repeat match goal with
  | H : (_ <? _) = true |- _ => apply num_lt_iff in H
  | H : (_ <? _) = false |- _ => apply num_lt_false in H
  | H : (_ >? _) = true |- _ => apply num_gt_iff in H
  | H : (_ >? _) = false |- _ => apply num_gt_false in H
  | H : (_ <=? _) = true |- _ => apply num_le_iff in H
  | H : (_ <=? _) = false |- _ => apply num_le_false in H
  | H : (_ >=? _) = true |- _ => apply num_ge_iff in H
  | H : (_ >=? _) = false |- _ => apply num_ge_false in H
  | |- (_ <? _) = true => apply num_lt_iff
  | |- (_ <? _) = false => apply num_lt_false
  | |- (_ >? _) = true => apply num_gt_iff
  | |- (_ >? _) = false => apply num_gt_false
  | |- (_ <=? _) = true => apply num_le_iff
  | |- (_ <=? _) = false => apply num_le_false
  | |- (_ >=? _) = true => apply num_ge_iff
  | |- (_ >=? _) = false => apply num_ge_false
  end.

(** ** The collision test *)

Lemma collidesWithPipe_iff box pipeBox :
  collidesWithPipe box pipeBox = true <-> boxesOverlap box pipeBox.
Proof.
  unfold collidesWithPipe, boxesOverlap, axisOverlap.
  rewrite negb_true_iff, !orb_false_iff.
  rewrite !num_lt_false, !num_gt_false. tauto.
Qed.

Lemma checkCollision_iff cv bird pipe :
  checkCollision cv bird pipe = true <->
  boxesOverlap (birdBox bird) (topPipeBox pipe)
  \/ boxesOverlap (birdBox bird) (bottomPipeBox cv pipe)
  \/ outOfBounds cv bird.
Proof.
  unfold checkCollision, outOfBounds.
  rewrite !orb_true_iff, !collidesWithPipe_iff, num_le_iff, num_ge_iff.
  tauto.
Qed.

Lemma birdBox_inset bird :
  top (birdBox bird) = y bird + num 5
  /\ bottom (birdBox bird) = y bird + num 30 - num 5
  /\ left (birdBox bird) = num 55
  /\ right (birdBox bird) = num 75.
Proof.
  repeat split; cbn [birdBox top bottom left right]; num_lra.
Qed.

Lemma checkCollision_in_gap cv bird pipe :
  topHeight pipe < top (birdBox bird) ->
  bottom (birdBox bird) < topHeight pipe + PIPE_GAP ->
  num 0 < y bird ->
  y bird + BIRD_SIZE < height cv ->
  checkCollision cv bird pipe = false.
Proof.
  intros Htop Hbottom Hup Hdown.
  apply not_true_iff_false. rewrite checkCollision_iff.
  unfold boxesOverlap, axisOverlap, outOfBounds.
  cbn [birdBox topPipeBox bottomPipeBox top bottom left right] in *.
  intros [[_ [_ H]] | [[_ [H _]] | [H | H]]].
  - now apply Qcle_not_lt in H.
  - now apply Qcle_not_lt in H.
  - now apply Qcle_not_lt in H.
  - now apply Qcle_not_lt in H.
Qed.

(** C3: [checkCollision] is true exactly when the bird's box inset by 5
    overlaps the top segment or the bottom segment of the pipe on both
    axes, or the unshrunk bird is out of the vertical bounds; it is false
    when the inset box is strictly inside the gap and the bird is within
    bounds, as for a pipe with [topHeight = 200] on the 600-tall canvas
    and an inset box between 205 and 365. *)
Theorem C3_checkCollision_spec :
  (forall cv bird pipe,
      checkCollision cv bird pipe = true <->
      boxesOverlap (birdBox bird) (topPipeBox pipe)
      \/ boxesOverlap (birdBox bird) (bottomPipeBox cv pipe)
      \/ y bird <= num 0 \/ height cv <= y bird + BIRD_SIZE)
  /\ (forall cv bird pipe,
      birdBox bird = inset (num 5) (birdSquare bird)
      /\ topPipeBox pipe =
        {| top := num 0; bottom := topHeight pipe;
           left := x pipe; right := x pipe + PIPE_WIDTH |}
      /\ bottomPipeBox cv pipe =
        {| top := topHeight pipe + PIPE_GAP; bottom := height cv;
           left := x pipe; right := x pipe + PIPE_WIDTH |})
  /\ (forall cv bird pipe,
      topHeight pipe < top (birdBox bird) ->
      bottom (birdBox bird) < topHeight pipe + PIPE_GAP ->
      num 0 < y bird ->
      y bird + BIRD_SIZE < height cv ->
      checkCollision cv bird pipe = false)
  /\ (forall bird pipe,
      topHeight pipe = num 200 ->
      num 205 <= top (birdBox bird) ->
      bottom (birdBox bird) <= num 365 ->
      checkCollision canvas bird pipe = false).
Proof.
  split; [| split; [| split]].
  - intros cv bird pipe. apply checkCollision_iff.
  - intros cv bird pipe. repeat split.
  - apply checkCollision_in_gap.
  - intros bird pipe Hth Hlo Hhi.
    cbn [birdBox top bottom] in Hlo, Hhi.
    apply checkCollision_in_gap;
      cbn [birdBox top bottom canvas height]; rewrite ?Hth; num_lra.
Qed.

Lemma C3_checkCollision_spec_witness :
  checkCollision canvas
    {| y := num 250; velocity := num 0; rotation := num 0 |}
    {| x := num 50; topHeight := num 200; passed := false |} = false.
Proof.
  destruct C3_checkCollision_spec as [_ [_ [_ H]]].
  apply H.
  - reflexivity.
  - vm_compute. discriminate.
  - vm_compute. discriminate.
Defined.

(** ** The frame, block by block *)

Lemma forEachPipe_pipes pipes pending :
  fst (forEachPipe pipes pending) = map scrolled pipes.
Proof.
  revert pending. induction pipes as [| pipe rest IH]; intros pending.
  - reflexivity.
  - cbn [forEachPipe map]. unfold scrolled at 1.
    destruct (scrollPipe pipe) as [pipe' scored].
    specialize (IH (if scored then pending + 1 else pending)%Z).
    destruct (forEachPipe rest _) as [rest' pending'].
    cbn [fst] in *. now rewrite IH.
Qed.

Lemma forEachPipe_score pipes pending :
  snd (forEachPipe pipes pending)
  = (pending + Z.of_nat (List.length (filter scores pipes)))%Z.
Proof.
  revert pending. induction pipes as [| pipe rest IH]; intros pending.
  - cbn. lia.
  - cbn [forEachPipe filter]. unfold scores at 1.
    destruct (scrollPipe pipe) as [pipe' scored].
    specialize (IH (if scored then pending + 1 else pending)%Z).
    destruct (forEachPipe rest _) as [rest' pending'].
    cbn [snd] in *. rewrite IH.
    destruct scored; cbn [List.length]; lia.
Qed.

(** A frame outside the playing state does nothing. *)
Lemma gameLoop_not_playing cv now random g :
  gameState g <> playing -> gameLoop cv now random g = g.
Proof.
  unfold gameLoop. destruct (gameState g); congruence.
Qed.

Section PlayingFrame.

Variables (cv : Canvas) (now : Z) (random : Qc) (g : Game).
Hypothesis Hplay : gameState g = playing.

(** A frame of the playing state, field by field. *)
Lemma gameLoop_playing :
  gameLoop cv now random g =
  {| gameState := if frameCollides cv now random g then gameOver else playing;
     score := score g
              + Z.of_nat (List.length (filter scores (keptPipes cv now random g)));
     highScore := if frameCollides cv now random g
                  then Z.max (highScore g) (score g) else highScore g;
     isMuted := isMuted g;
     birdRef := updateBird (birdRef g);
     pipesRef := map scrolled (keptPipes cv now random g);
     lastPipeSpawnRef :=
       snd (spawnPipe cv now random (pipesRef g) (lastPipeSpawnRef g));
     bgmPlaying := bgmPlaying g |}%Z.
Proof.
  unfold gameLoop, frameCollides, keptPipes. rewrite Hplay.
  destruct (spawnPipe cv now random (pipesRef g) (lastPipeSpawnRef g))
    as [spawned lastPipeSpawn].
  cbn [fst snd].
  pose proof (forEachPipe_pipes (filter onScreen spawned) (score g)) as Hp.
  pose proof (forEachPipe_score (filter onScreen spawned) (score g)) as Hs.
  destruct (forEachPipe (filter onScreen spawned) (score g))
    as [pipes pending].
  cbn [fst snd] in Hp, Hs. subst pipes pending.
  now destruct (existsb _ _).
Qed.

(** The collision check of a frame is a [some] over the pipes: with no
    pipe left after the spawn check and the filter, the frame reports
    no collision wherever the bird is. *)
Lemma gameLoop_no_pipes :
  keptPipes cv now random g = [] ->
  gameState (gameLoop cv now random g) = playing
  /\ pipesRef (gameLoop cv now random g) = [].
Proof.
  intros Hkept. rewrite gameLoop_playing.
  unfold frameCollides. rewrite Hkept. split; reflexivity.
Qed.

(** With a pipe in the collection, a bird out of the vertical bounds
    ends the run. *)
Lemma gameLoop_out_of_bounds :
  keptPipes cv now random g <> [] ->
  outOfBounds cv (updateBird (birdRef g)) ->
  gameState (gameLoop cv now random g) = gameOver.
Proof.
  intros Hkept Hout. rewrite gameLoop_playing.
  cbn [gameState]. unfold frameCollides.
  destruct (keptPipes cv now random g) as [| pipe rest]; [congruence |].
  cbn [map existsb].
  replace (checkCollision cv (updateBird (birdRef g)) (scrolled pipe))
    with true; [reflexivity |].
  symmetry. apply checkCollision_iff. right. right. exact Hout.
Qed.

(** The high score written at the end of a run is computed from the
    score the frame started with; the points of the frame itself go to
    the score only. *)
Lemma gameLoop_gameOver_highScore :
  gameState (gameLoop cv now random g) = gameOver ->
  highScore (gameLoop cv now random g) = Z.max (highScore g) (score g)
  /\ score (gameLoop cv now random g)
     = (score g
        + Z.of_nat (List.length (filter scores (keptPipes cv now random g))))%Z.
Proof.
  rewrite gameLoop_playing. cbn.
  destruct (frameCollides cv now random g);
    [split; reflexivity | discriminate].
Qed.

End PlayingFrame.

(** ** Gravity *)

(** C5: in a frame of the playing state the velocity grows by the
    gravity constant 0.4 and the position then advances by the new
    velocity; from position 300 and velocity 0 the frame gives velocity
    0.4 and position 300.4. *)
Theorem C5_gravity_integration cv now random g :
  gameState g = playing ->
  let bird := birdRef g in
  let bird' := birdRef (gameLoop cv now random g) in
  GRAVITY = num 0.4
  /\ velocity bird' = velocity bird + GRAVITY
  /\ y bird' = y bird + velocity bird'
  /\ (y bird = num 300 -> velocity bird = num 0 ->
      velocity bird' = num 0.4 /\ y bird' = num 300.4).
Proof.
  intros Hplay bird bird'. subst bird bird'.
  rewrite (gameLoop_playing _ _ _ _ Hplay).
  cbn [birdRef updateBird y velocity].
  split; [reflexivity |]. split; [reflexivity |]. split; [reflexivity |].
  intros Hy Hv. rewrite Hy, Hv. split; num_lra.
Qed.

Lemma C5_gravity_integration_witness :
  velocity (birdRef (gameLoop canvas 16 (num 0.5) (startGame 0 initial)))
    = num 0.4
  /\ y (birdRef (gameLoop canvas 16 (num 0.5) (startGame 0 initial)))
    = num 300.4.
Proof.
  apply (C5_gravity_integration canvas 16 (num 0.5) (startGame 0 initial));
    reflexivity.
Defined.

(** The scenario of C5 in binary64 arithmetic: the doubles nearest to
    0.4 and 300.4 are what the frame computes from 300 and 0. *)
#[warnings="-inexact-float"]
Lemma gravityStep64_scenario :
  PrimFloat.eqb (snd (gravityStep64 300%float 0%float)) 0.4%float = true
  /\ PrimFloat.eqb (fst (gravityStep64 300%float 0%float)) 300.4%float = true.
Proof. split; vm_compute; reflexivity. Qed.

(** ** Impulses *)

(** C6: while playing, a click or the Space key sets the velocity to
    exactly -8 whatever it was and leaves position and tilt alone; in
    the idle and gameOver states both leave the whole state, the bird
    included, as it is.  Any other key does nothing. *)
Theorem C6_impulse g :
  JUMP_FORCE = num (-8)
  /\ handleKeyPress "Space" g = handleClick g
  /\ (gameState g = playing ->
      velocity (birdRef (handleClick g)) = JUMP_FORCE
      /\ y (birdRef (handleClick g)) = y (birdRef g)
      /\ rotation (birdRef (handleClick g)) = rotation (birdRef g))
  /\ (gameState g = idle \/ gameState g = gameOver ->
      handleClick g = g /\ birdRef (handleClick g) = birdRef g)
  /\ (forall code, code <> "Space"%string -> handleKeyPress code g = g).
Proof.
  split; [reflexivity |]. split; [reflexivity |]. split; [| split].
  - intros Hplay. unfold handleClick. rewrite Hplay. now cbn.
  - intros [Hstate | Hstate]; unfold handleClick; now rewrite Hstate.
  - intros code Hcode. unfold handleKeyPress.
    apply String.eqb_neq in Hcode. now rewrite Hcode.
Qed.

Lemma C6_impulse_witness :
  velocity (birdRef (handleClick (startGame 0 initial))) = JUMP_FORCE
  /\ handleClick initial = initial.
Proof.
  split.
  - apply (C6_impulse (startGame 0 initial)). reflexivity.
  - apply (C6_impulse initial). left. reflexivity.
Defined.

(** ** Mute *)

(** C7, as the code has it: unmuting asks the background track to play
    in every game state, muting pauses it, and nothing else changes. *)
Theorem C7_toggleMute_any_state g :
  (isMuted g = true ->
   isMuted (toggleMute g) = false /\ bgmPlaying (toggleMute g) = true)
  /\ (isMuted g = false ->
      isMuted (toggleMute g) = true /\ bgmPlaying (toggleMute g) = false)
  /\ gameState (toggleMute g) = gameState g
  /\ birdRef (toggleMute g) = birdRef g
  /\ pipesRef (toggleMute g) = pipesRef g
  /\ score (toggleMute g) = score g
  /\ highScore (toggleMute g) = highScore g.
Proof.
  unfold toggleMute. cbn.
  split; [intros -> | split; [intros -> |]]; repeat split.
Qed.

Lemma C7_toggleMute_any_state_witness :
  isMuted (toggleMute (toggleMute initial)) = false
  /\ bgmPlaying (toggleMute (toggleMute initial)) = true.
Proof.
  apply (C7_toggleMute_any_state (toggleMute initial)). reflexivity.
Defined.

(** C7, as stated, fails: after muting on the start screen the game is
    idle and the track is silent, and unmuting starts the track. *)
Lemma C7_unmute_while_idle_counterexample :
  reachable canvas (toggleMute initial)
  /\ gameState (toggleMute initial) = idle
  /\ isMuted (toggleMute initial) = true
  /\ bgmPlaying (toggleMute initial) = false
  /\ gameState (toggleMute (toggleMute initial)) = idle
  /\ bgmPlaying (toggleMute (toggleMute initial)) = true.
Proof.
  split.
  - apply (reach_step canvas initial ToggleMute); [constructor | reflexivity].
  - repeat split.
Qed.

(** ** The spawner *)

Lemma generatePipe_bounds random :
  num 0 <= random -> random < num 1 ->
  num 100 <= topHeight (generatePipe canvas random)
  /\ topHeight (generatePipe canvas random) <= num 330.
Proof.
  intros Hlo Hhi. cbn [generatePipe topHeight canvas height].
  split; num_lra.
Qed.

Lemma spawnPipe_cases cv now random pipes lastPipeSpawn :
  ((now - lastPipeSpawn > 1800)%Z ->
   spawnPipe cv now random pipes lastPipeSpawn
   = (pipes ++ [generatePipe cv random], now))
  /\ ((now - lastPipeSpawn <= 1800)%Z ->
      spawnPipe cv now random pipes lastPipeSpawn = (pipes, lastPipeSpawn)).
Proof.
  unfold spawnPipe.
  destruct (Z.gtb_spec (now - lastPipeSpawn) 1800); split; intros; trivial; lia.
Qed.

(** C8: a spawned obstacle starts at the right edge, [x = canvas.width],
    not yet passed; on the 600-tall canvas, for every draw in [0, 1), its
    [topHeight] lies in [100, 330], so the top segment is at least 100
    tall, and so is the bottom segment, both as 600 - 170 - topHeight
    and as the box of [checkCollision] has it; the bottom segment
    starts exactly [PIPE_GAP] = 170 below the end of the top one; a
    frame appends one obstacle when more than 1800 ms passed since the
    last spawn and none otherwise. *)
Theorem C8_spawner :
  (forall cv random,
      x (generatePipe cv random) = width cv
      /\ passed (generatePipe cv random) = false)
  /\ (forall random,
      num 0 <= random -> random < num 1 ->
      let pipe := generatePipe canvas random in
      num 100 <= topHeight pipe <= num 330
      /\ num 100 <= bottom (topPipeBox pipe) - top (topPipeBox pipe)
      /\ num 100 <= num 600 - num 170 - topHeight pipe
      /\ num 100
         <= bottom (bottomPipeBox canvas pipe) - top (bottomPipeBox canvas pipe)
      /\ top (bottomPipeBox canvas pipe) = bottom (topPipeBox pipe) + PIPE_GAP
      /\ PIPE_GAP = num 170)
  /\ (forall cv now random g,
      gameState g = playing ->
      let g' := gameLoop cv now random g in
      ((now - lastPipeSpawnRef g > 1800)%Z ->
       pipesRef g' = pruneAndScroll (pipesRef g ++ [generatePipe cv random])
       /\ lastPipeSpawnRef g' = now)
      /\ ((now - lastPipeSpawnRef g <= 1800)%Z ->
          pipesRef g' = pruneAndScroll (pipesRef g)
          /\ lastPipeSpawnRef g' = lastPipeSpawnRef g)).
Proof.
  split; [| split].
  - intros cv random. split; reflexivity.
  - intros random Hlo Hhi pipe.
    destruct (generatePipe_bounds random Hlo Hhi) as [H100 H330].
    fold pipe in H100, H330.
    cbn [topPipeBox bottomPipeBox top bottom canvas height].
    split; [split; assumption |]. split; [num_lra |]. split; [num_lra |].
    split; [num_lra |]. split; reflexivity.
  - intros cv now random g Hplay g'. subst g'.
    rewrite (gameLoop_playing _ _ _ _ Hplay).
    cbn [pipesRef lastPipeSpawnRef]. unfold keptPipes, pruneAndScroll.
    destruct (spawnPipe_cases cv now random (pipesRef g) (lastPipeSpawnRef g))
      as [Hyes Hno].
    split; intros Hcmp; [rewrite (Hyes Hcmp) | rewrite (Hno Hcmp)];
      split; reflexivity.
Qed.

Lemma C8_spawner_witness :
  let pipe := generatePipe canvas (num 0.4) in
  num 100 <= topHeight pipe <= num 330
  /\ pipesRef (gameLoop canvas 1808 (num 0.4) (startGame 0 initial))
     = pruneAndScroll ([] ++ [pipe])
  /\ pipesRef (gameLoop canvas 16 (num 0.4) (startGame 0 initial))
     = pruneAndScroll [].
Proof.
  destruct C8_spawner as [_ [Hrange Hspawn]].
  split; [| split].
  - apply (Hrange (num 0.4)); vm_compute; [discriminate | reflexivity].
  - destruct (Hspawn canvas 1808%Z (num 0.4) (startGame 0 initial))
      as [Hyes _]; [reflexivity |].
    apply Hyes. cbn. lia.
  - destruct (Hspawn canvas 16%Z (num 0.4) (startGame 0 initial))
      as [_ Hno]; [reflexivity |].
    apply Hno. cbn. lia.
Defined.

(** ** Scrolling and pruning *)

Lemma onScreen_iff pipe : onScreen pipe = true <-> num (-60) < x pipe.
Proof.
  unfold onScreen. rewrite num_gt_iff.
  replace (- PIPE_WIDTH) with (num (-60)) by (now apply Qc_is_canon).
  tauto.
Qed.

Lemma onScreen_false pipe : onScreen pipe = false <-> x pipe <= num (-60).
Proof.
  unfold onScreen. rewrite num_gt_false.
  replace (- PIPE_WIDTH) with (num (-60)) by (now apply Qc_is_canon).
  tauto.
Qed.

Lemma filter_subsequence keep pipes : subsequence (filter keep pipes) pipes.
Proof.
  induction pipes as [| pipe rest IH]; cbn [filter].
  - constructor.
  - destruct (keep pipe); now constructor.
Qed.

Lemma scrolled_fields pipe :
  x (scrolled pipe) = x pipe - PIPE_SPEED
  /\ topHeight (scrolled pipe) = topHeight pipe
  /\ passed (scrolled pipe) = passed pipe || scores pipe.
Proof.
  unfold scrolled, scores, scrollPipe.
  destruct (passed pipe), (x pipe - PIPE_SPEED + PIPE_WIDTH <? num 50);
    repeat split.
Qed.

Lemma pruneAndScroll_single pipe :
  pruneAndScroll [pipe] = if onScreen pipe then [scrolled pipe] else [].
Proof.
  unfold pruneAndScroll. cbn [filter]. now destruct (onScreen pipe).
Qed.

(** C9: every frame of the playing state filters the collection, after
    the spawn check and before the scroll, keeping the order: an
    obstacle at [x <= -60] is dropped, one at [x > -60] is kept and
    scrolled by 2.5; an obstacle drifting from 400 is still there when
    its position has come down to -60, after 184 frames, and is gone
    after the next frame. *)
Theorem C9_pruning :
  (forall cv now random g,
      gameState g = playing ->
      let before :=
        fst (spawnPipe cv now random (pipesRef g) (lastPipeSpawnRef g)) in
      let kept := filter onScreen before in
      pipesRef (gameLoop cv now random g) = map scrolled kept
      /\ subsequence kept before
      /\ (forall pipe, In pipe before -> x pipe <= num (-60) -> ~ In pipe kept)
      /\ (forall pipe, In pipe before -> num (-60) < x pipe -> In pipe kept))
  /\ (forall pipe, x (scrolled pipe) = x pipe - num 2.5)
  /\ (forall pipe,
      (num (-60) < x pipe -> pruneAndScroll [pipe] = [scrolled pipe])
      /\ (x pipe <= num (-60) -> pruneAndScroll [pipe] = []))
  /\ (let pipe := {| x := num 400; topHeight := num 200; passed := false |} in
      Nat.iter 183 pruneAndScroll [pipe] = [pipeAfter 183 pipe]
      /\ x (pipeAfter 183 pipe) = num (-57.5)
      /\ Nat.iter 184 pruneAndScroll [pipe] = [pipeAfter 184 pipe]
      /\ x (pipeAfter 184 pipe) = num (-60)
      /\ Nat.iter 185 pruneAndScroll [pipe] = []).
Proof.
  split; [| split; [| split]].
  - intros cv now random g Hplay before kept.
    rewrite (gameLoop_playing _ _ _ _ Hplay). cbn [pipesRef].
    split; [reflexivity |]. split; [apply filter_subsequence |].
    subst kept. split; intros pipe Hin Hx.
    + rewrite filter_In. intros [_ Hon].
      apply onScreen_false in Hx. congruence.
    + apply filter_In. split; [assumption | now apply onScreen_iff].
  - intros pipe. apply scrolled_fields.
  - intros pipe. rewrite pruneAndScroll_single. split; intros Hx.
    + apply onScreen_iff in Hx. now rewrite Hx.
    + apply onScreen_false in Hx. now rewrite Hx.
  - cbv zeta. repeat split;
      first [apply Qc_is_canon; vm_compute; reflexivity
            | vm_compute; reflexivity].
Qed.

Lemma C9_pruning_witness :
  pipesRef (gameLoop canvas 1808 (num 0.4) (startGame 0 initial))
  = map scrolled [generatePipe canvas (num 0.4)]
  /\ pruneAndScroll [generatePipe canvas (num 0.4)]
     = [scrolled (generatePipe canvas (num 0.4))].
Proof.
  destruct C9_pruning as [Hframe [_ [Hone _]]].
  split.
  - apply (Hframe canvas 1808%Z (num 0.4) (startGame 0 initial)). reflexivity.
  - apply (Hone (generatePipe canvas (num 0.4))). vm_compute. reflexivity.
Defined.

(** ** The passed flag along a session *)

Lemma scores_iff pipe :
  scores pipe = true <->
  passed pipe = false /\ x (scrolled pipe) + PIPE_WIDTH < num 50.
Proof.
  unfold scores, scrolled, scrollPipe.
  destruct (passed pipe); cbn [negb andb fst snd x].
  - intuition discriminate.
  - destruct (x pipe - PIPE_SPEED + PIPE_WIDTH <? num 50) eqn:Hlt;
      cbn [fst snd x]; num_reflect.
    + tauto.
    + split; [discriminate |]. intros [_ H]. now apply Qcle_not_lt in Hlt.
Qed.

Lemma scores_false_iff pipe :
  scores pipe = false <->
  passed pipe = true \/ num 50 <= x (scrolled pipe) + PIPE_WIDTH.
Proof.
  rewrite <- not_true_iff_false, scores_iff. split.
  - intros H. destruct (passed pipe); [now left | right].
    apply Qcnot_lt_le. intros Hlt. apply H. now split.
  - intros [Hp | Hx] [Hnp Hlt]; [congruence |].
    now apply Qcle_not_lt in Hx.
Qed.

Lemma scrolled_passedBehind pipe :
  passedBehind pipe -> passedBehind (scrolled pipe).
Proof.
  unfold passedBehind. intros Hinv Hpassed.
  destruct (scrolled_fields pipe) as [Hx [_ Hp]].
  rewrite Hp in Hpassed. apply orb_true_iff in Hpassed.
  destruct Hpassed as [Hwas | Hnow].
  - specialize (Hinv Hwas). rewrite Hx. num_lra.
  - now apply scores_iff in Hnow.
Qed.

Lemma scrolled_unpassedAhead pipe : unpassedAhead (scrolled pipe).
Proof.
  unfold unpassedAhead. intros Hunpassed.
  destruct (scrolled_fields pipe) as [_ [_ Hp]].
  rewrite Hp in Hunpassed. apply orb_false_iff in Hunpassed.
  destruct Hunpassed as [Hwas Hnow].
  apply scores_false_iff in Hnow. destruct Hnow; [congruence | assumption].
Qed.

Lemma spawnPipe_In cv now random pipes lastPipeSpawn pipe :
  In pipe (fst (spawnPipe cv now random pipes lastPipeSpawn)) ->
  In pipe pipes \/ pipe = generatePipe cv random.
Proof.
  unfold spawnPipe. destruct (_ >? _)%Z; cbn [fst].
  - rewrite in_app_iff. cbn [In]. intuition.
  - now left.
Qed.

Lemma step_pipes cv g e (P : Pipe -> Prop) :
  (forall pipe, P pipe -> P (scrolled pipe)) ->
  P (scrolled (generatePipe cv (match e with
                                | Frame _ random => random
                                | _ => num 0
                                end))) ->
  Forall P (pipesRef g) -> Forall P (pipesRef (step cv g e)).
Proof.
  intros Hscroll Hnew Hall.
  destruct e as [now random | | code | now |]; cbn [step].
  - destruct (gameState g) eqn:Hstate;
      try (rewrite gameLoop_not_playing by congruence; assumption).
    rewrite (gameLoop_playing _ _ _ _ Hstate). cbn [pipesRef].
    apply Forall_map, Forall_forall. intros pipe Hin.
    unfold keptPipes in Hin. apply filter_In in Hin. destruct Hin as [Hin _].
    apply spawnPipe_In in Hin. destruct Hin as [Hold | ->].
    + apply Hscroll. rewrite Forall_forall in Hall. now apply Hall.
    + exact Hnew.
  - unfold handleClick. now destruct (gameState g).
  - unfold handleKeyPress, handleClick.
    now destruct (String.eqb code "Space"), (gameState g).
  - constructor.
  - assumption.
Qed.

(** In every state of a session a passed pipe has its right edge left
    of 50. *)
Lemma reachable_passedBehind cv g :
  reachable cv g -> Forall passedBehind (pipesRef g).
Proof.
  induction 1 as [| g e Hreach IH Hvalid].
  - constructor.
  - apply step_pipes; trivial.
    + apply scrolled_passedBehind.
    + apply scrolled_passedBehind. intros Hp. discriminate Hp.
Qed.

(** In every state of a session a pipe that has been scrolled and is
    not passed has its right edge at 50 or beyond: an unpassed pipe is
    on screen and the filter keeps it. *)
Lemma reachable_unpassedAhead cv g :
  reachable cv g -> Forall unpassedAhead (pipesRef g).
Proof.
  induction 1 as [| g e Hreach IH Hvalid].
  - constructor.
  - apply step_pipes; trivial; intros; apply scrolled_unpassedAhead.
Qed.

Lemma triple_inj {A B C : Type} (a a' : A) (b b' : B) (c c' : C) :
  (a, b, c) = (a', b', c') -> a = a' /\ b = b' /\ c = c'.
Proof. intros H. inversion H. auto. Qed.

Lemma reachable_run cv events g :
  reachable cv g -> forallb validEvent events = true ->
  reachable cv (run cv events g).
Proof.
  revert g. induction events as [| e rest IH]; intros g Hreach Hvalid.
  - exact Hreach.
  - cbn [forallb] in Hvalid. apply andb_true_iff in Hvalid.
    destruct Hvalid as [He Hrest].
    cbn [run fold_left]. apply IH; [| exact Hrest].
    now apply reach_step.
Qed.

Lemma behind_no_overlap bird pipeBox :
  right pipeBox < num 50 ->
  collidesWithPipe (birdBox bird) pipeBox = false.
Proof.
  intros Hright. unfold collidesWithPipe.
  apply negb_false_iff, orb_true_iff. left.
  apply orb_true_iff. left. apply orb_true_iff. right.
  num_reflect. cbn [birdBox left]. num_lra.
Qed.

(** C10: in every state of a session, a pipe whose passed flag is set
    has its right edge left of 50, hence left of the bird's inset box,
    which starts at 55: for any bird neither segment overlaps the box,
    and [checkCollision] on that pipe is the world-bounds test alone. *)
Theorem C10_passed_pipe_cannot_hit cv g pipe :
  reachable cv g -> In pipe (pipesRef g) -> passed pipe = true ->
  x pipe + PIPE_WIDTH < num 50
  /\ x (scrolled pipe) < x pipe
  /\ passed (scrolled pipe) = true
  /\ forall bird,
      left (birdBox bird) = num 55
      /\ collidesWithPipe (birdBox bird) (topPipeBox pipe) = false
      /\ collidesWithPipe (birdBox bird) (bottomPipeBox cv pipe) = false
      /\ checkCollision cv bird pipe
         = (y bird <=? num 0) || (y bird + BIRD_SIZE >=? height cv).
Proof.
  intros Hreach Hin Hpassed.
  pose proof (reachable_passedBehind cv g Hreach) as Hall.
  rewrite Forall_forall in Hall. specialize (Hall pipe Hin Hpassed).
  destruct (scrolled_fields pipe) as [Hx [_ Hp]].
  split; [exact Hall |]. split; [rewrite Hx; num_lra |].
  split; [now rewrite Hp, Hpassed |].
  intros bird.
  assert (Htop : collidesWithPipe (birdBox bird) (topPipeBox pipe) = false)
    by now apply behind_no_overlap.
  assert (Hbot : collidesWithPipe (birdBox bird) (bottomPipeBox cv pipe) = false)
    by now apply behind_no_overlap.
  split; [apply birdBox_inset |]. split; [exact Htop |]. split; [exact Hbot |].
  unfold checkCollision. now rewrite Htop, Hbot.
Qed.

Lemma C10_passed_pipe_cannot_hit_witness :
  let g := run canvas passingSession initial in
  let pipe := hd (generatePipe canvas (num 0)) (pipesRef g) in
  gameState g = playing
  /\ passed pipe = true
  /\ checkCollision canvas (birdRef g) pipe
     = (y (birdRef g) <=? num 0) || (y (birdRef g) + BIRD_SIZE >=? height canvas).
Proof.
  intros g pipe.
  assert (Hfacts : (gameState g, passed pipe, List.length (pipesRef g))
                   = (playing, true, 2%nat)) by (vm_compute; reflexivity).
  destruct (triple_inj _ _ _ _ _ _ Hfacts) as [Hstate [Hpassed Hlen]].
  assert (Hreach : reachable canvas g).
  { apply reachable_run; [constructor | vm_compute; reflexivity]. }
  assert (Hin : In pipe (pipesRef g)).
  { subst pipe. generalize dependent (pipesRef g).
    intros [| first rest]; [discriminate | left; reflexivity]. }
  split; [exact Hstate |]. split; [exact Hpassed |].
  apply (C10_passed_pipe_cannot_hit canvas g pipe Hreach Hin Hpassed).
Defined.

(** ** Scoring *)

Lemma passed_stays pipe n m :
  passed (pipeAfter n pipe) = true ->
  passed (pipeAfter (n + m) pipe) = true
  /\ scores (pipeAfter (n + m) pipe) = false.
Proof.
  intros Hn.
  assert (Hpassed : passed (pipeAfter (n + m) pipe) = true).
  { induction m as [| m IH].
    - now rewrite Nat.add_0_r.
    - rewrite Nat.add_succ_r.
      change (pipeAfter (S (n + m)) pipe)
        with (scrolled (pipeAfter (n + m) pipe)).
      destruct (scrolled_fields (pipeAfter (n + m) pipe)) as [_ [_ Hp]].
      now rewrite Hp, IH. }
  split; [exact Hpassed |].
  apply scores_false_iff. now left.
Qed.

Lemma scores_first_time pipe n :
  passed pipe = false ->
  x (pipeAfter (S n) pipe) + PIPE_WIDTH < num 50 ->
  (forall k, (k < n)%nat -> num 50 <= x (pipeAfter (S k) pipe) + PIPE_WIDTH) ->
  scores (pipeAfter n pipe) = true
  /\ (forall k, k <> n -> scores (pipeAfter k pipe) = false)
  /\ (forall k, (k <= n)%nat -> passed (pipeAfter k pipe) = false)
  /\ (forall k, (n < k)%nat -> passed (pipeAfter k pipe) = true).
Proof.
  intros Hunpassed Hcross Hbefore.
  assert (Hflag : forall k, (k <= n)%nat -> passed (pipeAfter k pipe) = false).
  { induction k as [| k IH]; intros Hk.
    - exact Hunpassed.
    - change (pipeAfter (S k) pipe) with (scrolled (pipeAfter k pipe)).
      destruct (scrolled_fields (pipeAfter k pipe)) as [_ [_ Hp]].
      rewrite Hp, IH by lia. cbn [orb].
      apply scores_false_iff. right. apply (Hbefore k). lia. }
  assert (Hscore : scores (pipeAfter n pipe) = true).
  { apply scores_iff. split; [now apply Hflag | exact Hcross]. }
  assert (Hafter : forall k, (n < k)%nat -> passed (pipeAfter k pipe) = true).
  { intros k Hk. replace k with (S n + (k - S n))%nat by lia.
    apply passed_stays.
    change (pipeAfter (S n) pipe) with (scrolled (pipeAfter n pipe)).
    destruct (scrolled_fields (pipeAfter n pipe)) as [_ [_ Hp]].
    rewrite Hp, Hscore. apply orb_true_r. }
  split; [exact Hscore |]. split; [| split; assumption].
  intros k Hk. apply scores_false_iff.
  destruct (Nat.lt_ge_cases k n) as [Hlt | Hge].
  - right. now apply Hbefore.
  - left. apply Hafter. lia.
Qed.

(** C4: the [forEach] adds exactly 1 to the score for a pipe when, after
    its move, the right edge [x + 60] is strictly left of 50 and the flag
    is still false, and sets the flag then; a frame adds one point per
    such pipe.  Followed through its frames, a pipe scores on the first
    frame in which its right edge is left of 50 and on no other; its flag
    is false up to that frame and true ever after.  An unpassed pipe of a
    session is never pruned. *)
Theorem C4_score_once_per_pipe :
  (forall pipe,
      (scores pipe = true <->
       passed pipe = false /\ x pipe - PIPE_SPEED + PIPE_WIDTH < num 50)
      /\ passed (scrolled pipe) = passed pipe || scores pipe)
  /\ (forall cv now random g,
      gameState g = playing ->
      let kept := keptPipes cv now random g in
      pipesRef (gameLoop cv now random g) = map scrolled kept
      /\ score (gameLoop cv now random g)
         = (score g + Z.of_nat (List.length (filter scores kept)))%Z)
  /\ (forall pipe n,
      passed pipe = false ->
      x (pipeAfter (S n) pipe) + PIPE_WIDTH < num 50 ->
      (forall k, (k < n)%nat ->
                 num 50 <= x (pipeAfter (S k) pipe) + PIPE_WIDTH) ->
      scores (pipeAfter n pipe) = true
      /\ (forall k, k <> n -> scores (pipeAfter k pipe) = false)
      /\ (forall k, (k <= n)%nat -> passed (pipeAfter k pipe) = false)
      /\ (forall k, (n < k)%nat -> passed (pipeAfter k pipe) = true))
  /\ (forall pipe n m,
      passed (pipeAfter n pipe) = true ->
      passed (pipeAfter (n + m) pipe) = true
      /\ scores (pipeAfter (n + m) pipe) = false)
  /\ (forall cv g pipe,
      reachable cv g -> In pipe (pipesRef g) -> passed pipe = false ->
      onScreen pipe = true).
Proof.
  split; [| split; [| split; [| split]]].
  - intros pipe. split.
    + rewrite scores_iff. now destruct (scrolled_fields pipe) as [-> _].
    + apply scrolled_fields.
  - intros cv now random g Hplay kept.
    rewrite (gameLoop_playing _ _ _ _ Hplay). split; reflexivity.
  - apply scores_first_time.
  - apply passed_stays.
  - intros cv g pipe Hreach Hin Hunpassed.
    pose proof (reachable_unpassedAhead cv g Hreach) as Hall.
    rewrite Forall_forall in Hall. specialize (Hall pipe Hin Hunpassed).
    apply onScreen_iff. num_lra.
Qed.

Lemma C4_score_once_per_pipe_witness :
  let pipe := generatePipe canvas (num 0.4) in
  scores (pipeAfter 164 pipe) = true
  /\ score (gameLoop canvas 2000 (num 0.4) (startGame 0 initial)) = 0%Z
  /\ passed (pipeAfter 164 pipe) = false
  /\ passed (pipeAfter 165 pipe) = true
  /\ scores (pipeAfter 165 pipe) = false
  /\ onScreen (scrolled pipe) = true.
Proof.
  intros pipe.
  destruct C4_score_once_per_pipe as [_ [Hframe [Hfirst [Hstays Hkept]]]].
  destruct (Hfirst pipe 164%nat) as [Hscore [_ [Hbefore Hafter]]].
  - reflexivity.
  - vm_compute. reflexivity.
  - intros k Hk.
    do 164 (destruct k as [| k]; [vm_compute; discriminate |]). lia.
  - split; [exact Hscore |]. split.
    { destruct (Hframe canvas 2000%Z (num 0.4) (startGame 0 initial))
        as [_ Hs]; [reflexivity |].
      rewrite Hs. vm_compute. reflexivity. }
    split; [apply Hbefore; lia |]. split; [apply Hafter; lia |].
    split.
    { apply (Hstays pipe 165%nat 0%nat). apply Hafter. lia. }
    apply (Hkept canvas (gameLoop canvas 2000 (num 0.4) (startGame 0 initial))).
    + apply (reach_step canvas _ (Frame 2000 (num 0.4))); [| reflexivity].
      apply (reach_step canvas _ (Start 0)); [constructor | reflexivity].
    + left. reflexivity.
    + reflexivity.
Defined.

(** ** The end of a run *)

(** C1, on the code: started and left alone, the bird is below the
    bottom of the canvas from frame 37 on (its bottom edge at 611.2),
    yet with no pipe in the collection the frames report no collision
    and the state stays playing; the run ends in frame 113, the first
    with a pipe. *)
Theorem C1_bounds_unchecked_without_pipes :
  let g := run canvas (idleSession 36) initial in
  let g' := gameLoop canvas (37 * 16) (num 0.5) g in
  reachable canvas g
  /\ summary g = (playing, 0, 0, 0%nat)%Z
  /\ y (birdRef g') + BIRD_SIZE = num 611.2
  /\ (y (birdRef g') + BIRD_SIZE >=? height canvas) = true
  /\ summary g' = (playing, 0, 0, 0%nat)%Z
  /\ summary (run canvas (idleSession 112) initial) = (playing, 0, 0, 0%nat)%Z
  /\ summary (run canvas (idleSession 113) initial) = (gameOver, 0, 0, 1%nat)%Z.
Proof.
  intros g g'.
  split; [apply reachable_run; [constructor | vm_compute; reflexivity] |].
  assert (Hrun : (summary g,
                  Qc_eq_bool (y (birdRef g') + BIRD_SIZE) (num 611.2),
                  (y (birdRef g') + BIRD_SIZE >=? height canvas),
                  summary g',
                  summary (run canvas (idleSession 113) initial))
                 = ((playing, 0, 0, 0%nat)%Z, true, true,
                    (playing, 0, 0, 0%nat)%Z, (gameOver, 0, 0, 1%nat)%Z))
    by (vm_compute; reflexivity).
  destruct (triple_inj _ _ _ _ _ _ Hrun) as [Hfirst [Hafter Hend]].
  destruct (triple_inj _ _ _ _ _ _ Hfirst) as [Hbefore [Hedge Hout]].
  split; [exact Hbefore |].
  split; [apply Qc_eq_bool_correct; exact Hedge |].
  split; [exact Hout |]. split; [exact Hafter |].
  split; [vm_compute; reflexivity | exact Hend].
Qed.

(** C2, on the code: in frame 199 of the session the first pipe is
    passed, which brings the score from 0 to 1, and the bird hits the
    bottom segment of the second pipe; the run ends with score 1 and
    the high score is set to max(0, 0) = 0. *)
Theorem C2_highScore_misses_last_point :
  let g := run canvas lateScoreSession initial in
  let g' := gameLoop canvas (199 * 52) (num 0.4) g in
  reachable canvas g
  /\ summary g = (playing, 0, 0, 5%nat)%Z
  /\ summary g' = (gameOver, 1, 0, 5%nat)%Z
  /\ (highScore g' =? Z.max (highScore g) (score g'))%Z = false.
Proof.
  intros g g'.
  split; [apply reachable_run; [constructor | vm_compute; reflexivity] |].
  assert (Hrun : (summary g, summary g',
                  (highScore g' =? Z.max (highScore g) (score g'))%Z)
                 = ((playing, 0, 0, 5%nat)%Z, (gameOver, 1, 0, 5%nat)%Z, false))
    by (vm_compute; reflexivity).
  exact (triple_inj _ _ _ _ _ _ Hrun).
Qed.

(** * Further properties of the hook *)

(** ** The state machine *)

Lemma step_gameState cv g e :
  match gameState g, gameState (step cv g e) with
  | idle, idle | playing, playing | gameOver, gameOver => True
  | idle, playing | gameOver, playing => exists now, e = Start now
  | playing, gameOver =>
      exists now random,
        e = Frame now random /\ frameCollides cv now random g = true
  | _, _ => False
  end.
Proof.
  destruct e as [now random | | code | now |]; cbn [step].
  - destruct (gameState g) eqn:Hstate;
      try (rewrite gameLoop_not_playing, Hstate by congruence; exact I).
    rewrite (gameLoop_playing _ _ _ _ Hstate). cbn [gameState].
    destruct (frameCollides cv now random g) eqn:Hhit; [| exact I].
    exists now, random. now split.
  - unfold handleClick. destruct (gameState g) eqn:Hstate;
      cbn [gameState]; rewrite ?Hstate; exact I.
  - unfold handleKeyPress, handleClick.
    destruct (String.eqb code "Space"), (gameState g) eqn:Hstate;
      cbn [gameState]; rewrite ?Hstate; exact I.
  - cbn [startGame gameState]. destruct (gameState g); try exact I;
      now exists now.
  - cbn [toggleMute gameState]. now destruct (gameState g).
Qed.

(** X1: the only transitions are idle to playing and gameOver to
    playing, both by [startGame] alone, and playing to gameOver, by a
    frame whose collision check fires; [startGame] always leads to
    playing, and a session that has left the idle state never comes back
    to it. *)
Theorem X1_state_machine cv :
  (forall g e,
      match gameState g, gameState (step cv g e) with
      | idle, idle | playing, playing | gameOver, gameOver => True
      | idle, playing | gameOver, playing => exists now, e = Start now
      | playing, gameOver =>
          exists now random,
            e = Frame now random /\ frameCollides cv now random g = true
      | _, _ => False
      end)
  /\ (forall g now, gameState (step cv g (Start now)) = playing)
  /\ (forall events g,
      gameState g <> idle -> gameState (run cv events g) <> idle).
Proof.
  split; [apply step_gameState |]. split; [reflexivity |].
  induction events as [| e rest IH]; intros g Hg; [exact Hg |].
  cbn [run fold_left]. apply IH.
  pose proof (step_gameState cv g e) as Hstep.
  destruct (gameState g), (gameState (step cv g e));
    try congruence; contradiction.
Qed.

Lemma X1_state_machine_witness :
  gameState (run canvas (idleSession 2) (startGame 0 initial)) <> idle.
Proof.
  destruct (X1_state_machine canvas) as [_ [_ Hrun]].
  apply Hrun. cbn. discriminate.
Defined.

(** ** Scores along a session *)

Lemma step_highScore cv g e : (highScore g <= highScore (step cv g e))%Z.
Proof.
  destruct e as [now random | | code | now |]; cbn [step].
  - destruct (gameState g) eqn:Hstate;
      try (rewrite gameLoop_not_playing by congruence; lia).
    rewrite (gameLoop_playing _ _ _ _ Hstate). cbn [highScore].
    destruct (frameCollides cv now random g); lia.
  - unfold handleClick. destruct (gameState g); cbn; lia.
  - unfold handleKeyPress, handleClick.
    destruct (String.eqb code "Space"), (gameState g); cbn; lia.
  - cbn. lia.
  - cbn. lia.
Qed.

(** X2: the high score never decreases, whatever the events of the
    session; it changes only in the frame that ends a run. *)
Theorem X2_highScore_monotone cv :
  (forall events g, (highScore g <= highScore (run cv events g))%Z)
  /\ (forall g e,
      highScore (step cv g e) <> highScore g ->
      gameState g = playing /\ gameState (step cv g e) = gameOver).
Proof.
  split.
  - induction events as [| e rest IH]; intros g; cbn [run fold_left].
    + lia.
    + specialize (IH (step cv g e)). unfold run in IH.
      pose proof (step_highScore cv g e). lia.
  - intros g e Hchange.
    destruct e as [now random | | code | now |]; cbn [step] in *.
    + destruct (gameState g) eqn:Hstate;
        try (rewrite gameLoop_not_playing in Hchange by congruence;
             congruence).
      rewrite (gameLoop_playing _ _ _ _ Hstate) in *.
      cbn [highScore gameState] in *.
      destruct (frameCollides cv now random g); [now split | congruence].
    + unfold handleClick in Hchange.
      destruct (gameState g); cbn in Hchange; congruence.
    + unfold handleKeyPress, handleClick in Hchange.
      destruct (String.eqb code "Space"), (gameState g);
        cbn in Hchange; congruence.
    + cbn in Hchange. congruence.
    + cbn in Hchange. congruence.
Qed.

Lemma X2_highScore_monotone_witness :
  let g := {| gameState := playing; score := 3; highScore := 1;
              isMuted := false;
              birdRef := {| y := num 300; velocity := num 0;
                            rotation := num 0 |};
              pipesRef := [{| x := num 60; topHeight := num 400;
                              passed := false |}];
              lastPipeSpawnRef := 0; bgmPlaying := true |} in
  gameState g = playing
  /\ gameState (step canvas g (Frame 16 (num 0.5))) = gameOver.
Proof.
  intros g. destruct (X2_highScore_monotone canvas) as [_ Hchange].
  apply Hchange. vm_compute. discriminate.
Defined.

Lemma step_score cv g e :
  isStart e = false -> (score g <= score (step cv g e))%Z.
Proof.
  intros Hstart.
  destruct e as [now random | | code | now |]; cbn [step];
    try discriminate Hstart.
  - destruct (gameState g) eqn:Hstate;
      try (rewrite gameLoop_not_playing by congruence; lia).
    rewrite (gameLoop_playing _ _ _ _ Hstate). cbn [score]. lia.
  - unfold handleClick. destruct (gameState g); cbn; lia.
  - unfold handleKeyPress, handleClick.
    destruct (String.eqb code "Space"), (gameState g); cbn; lia.
  - cbn. lia.
Qed.

(** Outside the playing state every event but [startGame] leaves the
    game as it is. *)
Lemma step_frozen cv g e :
  gameState g <> playing -> isStart e = false ->
  physics (step cv g e) = physics g /\ highScore (step cv g e) = highScore g.
Proof.
  intros Hstate Hstart.
  destruct e as [now random | | code | now |]; cbn [step];
    try discriminate Hstart.
  - now rewrite gameLoop_not_playing.
  - unfold handleClick.
    destruct (gameState g) eqn:Hs; try congruence; now split.
  - unfold handleKeyPress, handleClick.
    destruct (String.eqb code "Space"); [| now split].
    destruct (gameState g) eqn:Hs; try congruence; now split.
  - now split.
Qed.

(** X3: during a run, that is along events without [startGame], the
    score never decreases; [startGame] puts it back to 0. *)
Theorem X3_score_monotone_in_run cv events g :
  forallb (fun e => negb (isStart e)) events = true ->
  (score g <= score (run cv events g))%Z.
Proof.
  revert g. induction events as [| e rest IH]; intros g Hrun;
    cbn [run fold_left]; [lia |].
  cbn [forallb] in Hrun. apply andb_true_iff in Hrun.
  destruct Hrun as [He Hrest]. apply negb_true_iff in He.
  specialize (IH (step cv g e) Hrest). unfold run in IH.
  pose proof (step_score cv g e He). lia.
Qed.

Lemma X3_score_monotone_in_run_witness :
  (score (startGame 0 initial)
   <= score (run canvas [Click; Frame 2000 (num 0.4); ToggleMute]
                (startGame 0 initial)))%Z.
Proof.
  apply (X3_score_monotone_in_run canvas
           [Click; Frame 2000 (num 0.4); ToggleMute] (startGame 0 initial)).
  reflexivity.
Defined.

(** X4: once the run is over (and before the first one), frames, clicks
    and keys do nothing at all, and no event other than [startGame]
    changes the bird, the pipes, the score, the high score or the state:
    the game stays as the collision left it until the next start. *)
Theorem X4_frozen_until_start cv events g :
  gameState g <> playing ->
  forallb (fun e => negb (isStart e)) events = true ->
  physics (run cv events g) = physics g
  /\ highScore (run cv events g) = highScore g
  /\ (forallb (fun e => negb (isToggleMute e)) events = true ->
      run cv events g = g).
Proof.
  revert g. induction events as [| e rest IH]; intros g Hstate Hrun;
    cbn [run fold_left]; [repeat split |].
  cbn [forallb] in Hrun. apply andb_true_iff in Hrun.
  destruct Hrun as [He Hrest]. apply negb_true_iff in He.
  destruct (step_frozen cv g e Hstate He) as [Hphys Hhigh].
  assert (Hstate' : gameState (step cv g e) <> playing).
  { unfold physics in Hphys. congruence. }
  destruct (IH (step cv g e) Hstate' Hrest) as [IHphys [IHhigh IHall]].
  unfold run in *. split; [congruence |]. split; [congruence |].
  intros Hquiet. cbn [forallb] in Hquiet. apply andb_true_iff in Hquiet.
  destruct Hquiet as [Hq Hqrest]. rewrite (IHall Hqrest).
  destruct e as [now random | | code | now |]; cbn [step];
    try discriminate.
  - now apply gameLoop_not_playing.
  - unfold handleClick.
    destruct (gameState g) eqn:Hs; [reflexivity | congruence | reflexivity].
  - unfold handleKeyPress, handleClick.
    destruct (String.eqb code "Space"); [| reflexivity].
    destruct (gameState g) eqn:Hs; [reflexivity | congruence | reflexivity].
Qed.

Lemma X4_frozen_until_start_witness :
  run canvas [Click; Frame 16 (num 0.5); KeyDown "Space"] initial = initial.
Proof.
  destruct (X4_frozen_until_start canvas
              [Click; Frame 16 (num 0.5); KeyDown "Space"] initial)
    as [_ [_ Hall]].
  - discriminate.
  - reflexivity.
  - apply Hall. reflexivity.
Defined.

(** ** What the game depends on *)

Lemma step_physics cv g1 g2 e :
  physics g1 = physics g2 -> physics (step cv g1 e) = physics (step cv g2 e).
Proof.
  unfold physics. intros Heq.
  injection Heq as Hstate Hscore Hbird Hpipes Hlast.
  destruct e as [now random | | code | now |]; cbn [step].
  - unfold gameLoop. rewrite Hstate.
    destruct (gameState g2) eqn:Hs; cbn beta iota;
      [congruence | | congruence].
    rewrite Hscore, Hbird, Hpipes, Hlast.
    destruct (spawnPipe cv now random (pipesRef g2) (lastPipeSpawnRef g2))
      as [spawned lastPipeSpawn].
    destruct (forEachPipe (filter onScreen spawned) (score g2))
      as [pipes pending].
    now destruct (existsb _ _).
  - unfold handleClick. rewrite Hstate.
    destruct (gameState g2) eqn:Hs; cbn; congruence.
  - unfold handleKeyPress, handleClick. rewrite Hstate.
    destruct (String.eqb code "Space"), (gameState g2) eqn:Hs;
      cbn; congruence.
  - reflexivity.
  - cbn. congruence.
Qed.

(** X5: the course of the game depends on nothing but the game: two
    states with the same bird, pipes, score, state and spawn time go
    through the same ones under the same events, whatever their high
    score, mute flag and track; and [startGame] forgets the past, so
    every run with the same events is the same run. *)
Theorem X5_physics_independent cv events :
  (forall g1 g2,
      physics g1 = physics g2 ->
      physics (run cv events g1) = physics (run cv events g2))
  /\ (forall g1 g2 now,
      physics (run cv (Start now :: events) g1)
      = physics (run cv (Start now :: events) g2)).
Proof.
  assert (Hsame : forall g1 g2,
             physics g1 = physics g2 ->
             physics (run cv events g1) = physics (run cv events g2)).
  { induction events as [| e rest IH]; intros g1 g2 Heq;
      cbn [run fold_left]; [exact Heq |].
    apply IH. now apply step_physics. }
  split; [exact Hsame |].
  intros g1 g2 now. cbn [run fold_left step]. apply Hsame. reflexivity.
Qed.

Lemma X5_physics_independent_witness :
  physics (run canvas (idleSession 3) (toggleMute initial))
  = physics (run canvas (idleSession 3) initial).
Proof.
  destruct (X5_physics_independent canvas (idleSession 3)) as [Hsame _].
  apply Hsame. reflexivity.
Defined.

(** ** The background track *)

Lemma step_audio cv g e :
  isStart e = false -> isToggleMute e = false ->
  isMuted (step cv g e) = isMuted g
  /\ bgmPlaying (step cv g e) = bgmPlaying g.
Proof.
  intros Hstart Htoggle.
  destruct e as [now random | | code | now |]; cbn [step];
    try discriminate.
  - unfold gameLoop. destruct (gameState g); try now split.
    destruct (spawnPipe cv now random (pipesRef g) (lastPipeSpawnRef g))
      as [spawned lastPipeSpawn].
    destruct (forEachPipe (filter onScreen spawned) (score g))
      as [pipes pending].
    now destruct (existsb _ _).
  - unfold handleClick. now destruct (gameState g).
  - unfold handleKeyPress, handleClick.
    now destruct (String.eqb code "Space"), (gameState g).
Qed.

Lemma reachable_muted_silent cv g :
  reachable cv g -> isMuted g = true -> bgmPlaying g = false.
Proof.
  induction 1 as [| g e Hreach IH Hvalid]; [discriminate |].
  destruct (isStart e) eqn:Hstart; [| destruct (isToggleMute e) eqn:Htoggle].
  - destruct e; try discriminate. cbn [step startGame isMuted bgmPlaying].
    intros Hmuted. rewrite Hmuted. cbn. now apply IH.
  - destruct e; try discriminate. cbn [step toggleMute isMuted bgmPlaying].
    intros Hmuted. now rewrite Hmuted.
  - destruct (step_audio cv g e Hstart Htoggle) as [-> ->]. exact IH.
Qed.

(** X6: in every state of a session the background track is silent
    while the sound is muted; only [startGame] and [toggleMute] touch the
    track and the mute flag, so a collision does not stop the music. *)
Theorem X6_track_silent_while_muted cv :
  (forall g, reachable cv g -> isMuted g = true -> bgmPlaying g = false)
  /\ (forall g e,
      isStart e = false -> isToggleMute e = false ->
      isMuted (step cv g e) = isMuted g
      /\ bgmPlaying (step cv g e) = bgmPlaying g).
Proof.
  split; [apply reachable_muted_silent | apply step_audio].
Qed.

Lemma X6_track_silent_while_muted_witness :
  bgmPlaying (startGame 0 (toggleMute initial)) = false
  /\ bgmPlaying (gameLoop canvas 16 (num 0.5) (startGame 0 initial)) = true.
Proof.
  destruct (X6_track_silent_while_muted canvas) as [Hsilent Hkeep].
  split.
  - apply Hsilent; [| reflexivity].
    apply (reach_step canvas _ (Start 0)); [| reflexivity].
    apply (reach_step canvas _ ToggleMute); [constructor | reflexivity].
  - apply (Hkeep (startGame 0 initial) (Frame 16 (num 0.5))); reflexivity.
Defined.

(** X7: once the track follows the mute flag, two presses of the mute
    button give the state back; that is the case after any [toggleMute],
    after any [startGame] of a session, and from then on for ever.
    (Before both, on the start screen, the track is off with the sound
    on, and two presses turn it on.) *)
Theorem X7_toggleMute_round_trip cv :
  (forall g, audioSettled g -> toggleMute (toggleMute g) = g)
  /\ (forall g, audioSettled (toggleMute g))
  /\ (forall g now, reachable cv g -> audioSettled (startGame now g))
  /\ (forall g e, audioSettled g -> audioSettled (step cv g e)).
Proof.
  unfold audioSettled. split; [| split; [| split]].
  - intros [state sc high muted bird pipes last bgm] Hsettled.
    cbn in Hsettled. subst bgm. unfold toggleMute. cbn.
    now destruct muted.
  - intros g. cbn. now destruct (isMuted g).
  - intros g now Hreach. cbn.
    destruct (isMuted g) eqn:Hmuted; cbn; [| reflexivity].
    now apply (reachable_muted_silent cv).
  - intros g e Hsettled.
    destruct (isStart e) eqn:Hstart; [| destruct (isToggleMute e) eqn:Htoggle].
    + destruct e; try discriminate. cbn. rewrite Hsettled.
      now destruct (isMuted g).
    + destruct e; try discriminate. cbn. now destruct (isMuted g).
    + now destruct (step_audio cv g e Hstart Htoggle) as [-> ->].
Qed.

Lemma X7_toggleMute_round_trip_witness :
  toggleMute (toggleMute (startGame 0 initial)) = startGame 0 initial.
Proof.
  destruct (X7_toggleMute_round_trip canvas) as [Hround [_ [Hstart _]]].
  apply Hround. apply Hstart. constructor.
Defined.

(** ** The bird *)

Lemma updateBird_bounds bird :
  JUMP_FORCE <= velocity bird -> num (-0.32) <= rotation bird ->
  num (-7.6) <= velocity (updateBird bird)
  /\ num (-0.32) <= rotation (updateBird bird)
  /\ y bird - num 7.6 <= y (updateBird bird).
Proof.
  intros Hv Hr. cbn [updateBird y velocity rotation].
  repeat split; num_lra.
Qed.

(** X8: in every state of a session the vertical velocity is at least
    the jump force -8 and the tilt at least -0.32; hence a frame never
    lifts the bird by more than 7.6. *)
Theorem X8_bird_bounds cv g :
  reachable cv g ->
  JUMP_FORCE <= velocity (birdRef g)
  /\ num (-0.32) <= rotation (birdRef g)
  /\ (forall now random,
      gameState g = playing ->
      y (birdRef g) - num 7.6 <= y (birdRef (gameLoop cv now random g))).
Proof.
  intros Hreach.
  assert (Hinv : JUMP_FORCE <= velocity (birdRef g)
                 /\ num (-0.32) <= rotation (birdRef g)).
  { induction Hreach as [| g e Hreach [IHv IHr] Hvalid].
    - split; vm_compute; discriminate.
    - destruct e as [now random | | code | now |]; cbn [step].
      + destruct (gameState g) eqn:Hstate;
          try (rewrite gameLoop_not_playing by congruence; now split).
        rewrite (gameLoop_playing _ _ _ _ Hstate). cbn [birdRef].
        destruct (updateBird_bounds _ IHv IHr) as [Hv [Hr _]].
        split; [num_lra | exact Hr].
      + unfold handleClick.
        destruct (gameState g);
          first [now split
                | cbn [birdRef velocity rotation];
                  split; [apply Qcle_refl | exact IHr]].
      + unfold handleKeyPress, handleClick.
        destruct (String.eqb code "Space"), (gameState g);
          first [now split
                | cbn [birdRef velocity rotation];
                  split; [apply Qcle_refl | exact IHr]].
      + split; vm_compute; discriminate.
      + now split. }
  destruct Hinv as [Hv Hr]. split; [exact Hv |]. split; [exact Hr |].
  intros now random Hstate.
  rewrite (gameLoop_playing _ _ _ _ Hstate). cbn [birdRef].
  now apply updateBird_bounds.
Qed.

Lemma X8_bird_bounds_witness :
  JUMP_FORCE <= velocity (birdRef (handleClick (startGame 0 initial)))
  /\ num (-0.32) <= rotation (birdRef (handleClick (startGame 0 initial)))
  /\ y (birdRef (handleClick (startGame 0 initial))) - num 7.6
     <= y (birdRef (gameLoop canvas 16 (num 0.5)
                      (handleClick (startGame 0 initial)))).
Proof.
  destruct (X8_bird_bounds canvas (handleClick (startGame 0 initial)))
    as [Hv [Hr Hy]].
  - apply (reach_step canvas _ Click); [| reflexivity].
    apply (reach_step canvas _ (Start 0)); [constructor | reflexivity].
  - split; [exact Hv |]. split; [exact Hr |]. apply Hy. reflexivity.
Defined.



(** ** The pipes of a session *)

(** What an event does to the collection. *)
Lemma step_pipesRef cv g e :
  pipesRef (step cv g e) = pipesRef g
  \/ pipesRef (step cv g e) = []
  \/ exists now random,
       e = Frame now random /\ gameState g = playing
       /\ (pipesRef (step cv g e) = pruneAndScroll (pipesRef g)
           \/ pipesRef (step cv g e)
              = pruneAndScroll (pipesRef g ++ [generatePipe cv random])).
Proof.
  destruct e as [now random | | code | now |]; cbn [step].
  - destruct (gameState g) eqn:Hstate;
      try (left; now rewrite gameLoop_not_playing by congruence).
    right. right. exists now, random. split; [reflexivity |].
    split; [reflexivity |].
    rewrite (gameLoop_playing _ _ _ _ Hstate). cbn [pipesRef].
    unfold keptPipes, pruneAndScroll, spawnPipe.
    destruct (_ >? _)%Z; cbn [fst]; [now right | now left].
  - left. unfold handleClick. now destruct (gameState g).
  - left. unfold handleKeyPress, handleClick.
    now destruct (String.eqb code "Space"), (gameState g).
  - right. now left.
  - now left.
Qed.

Lemma pruneAndScroll_Forall (P Q : Pipe -> Prop) pipes :
  (forall pipe, Q pipe -> onScreen pipe = true -> P (scrolled pipe)) ->
  Forall Q pipes -> Forall P (pruneAndScroll pipes).
Proof.
  intros Hstep Hall. unfold pruneAndScroll.
  apply Forall_map, Forall_forall. intros pipe Hin.
  apply filter_In in Hin. destruct Hin as [Hin Hon].
  apply Hstep; [| exact Hon]. rewrite Forall_forall in Hall. now apply Hall.
Qed.

Lemma scrolled_onCanvas pipe :
  num 100 <= topHeight pipe /\ topHeight pipe <= num 330
  /\ x pipe <= num 400 ->
  onScreen pipe = true -> pipeOnCanvas (scrolled pipe).
Proof.
  intros [Hlo [Hhi Hx]] Hon. apply onScreen_iff in Hon.
  destruct (scrolled_fields pipe) as [Hx' [Hth _]].
  unfold pipeOnCanvas. rewrite Hx', Hth. repeat split; num_lra.
Qed.

(** X10: on the 400 x 600 canvas, every pipe of every state of a
    session has its top segment between 100 and 330 tall, both bounds
    included (so the bottom one is at least 100 tall as well), and its
    left edge in (-62.5, 397.5]. *)
Theorem X10_pipes_on_canvas g :
  reachable canvas g ->
  Forall pipeOnCanvas (pipesRef g)
  /\ Forall (fun pipe =>
               num 100 <= height canvas - (topHeight pipe + PIPE_GAP))
       (pipesRef g).
Proof.
  intros Hreach.
  assert (Hinv : Forall pipeOnCanvas (pipesRef g)).
  { induction Hreach as [| g e Hreach IH Hvalid]; [constructor |].
    destruct (step_pipesRef canvas g e)
      as [-> | [-> | [now [random [-> [Hstate [-> | ->]]]]]]];
      [exact IH | constructor | |].
    - apply (pruneAndScroll_Forall _ _ _ scrolled_onCanvas).
      eapply Forall_impl; [| exact IH].
      intros pipe [Hlo [Hhi [_ Hx]]]. repeat split; trivial. num_lra.
    - apply (pruneAndScroll_Forall _ _ _ scrolled_onCanvas).
      apply Forall_app. split.
      + eapply Forall_impl; [| exact IH].
        intros pipe [Hlo [Hhi [_ Hx]]]. repeat split; trivial. num_lra.
      + constructor; [| constructor].
        cbn [validEvent] in Hvalid. apply andb_true_iff in Hvalid.
        destruct Hvalid as [Hr0 Hr1]. num_reflect.
        destruct (generatePipe_bounds random Hr0 Hr1) as [Hlo Hhi].
        repeat split; trivial. cbn. num_lra. }
  split; [exact Hinv |].
  eapply Forall_impl; [| exact Hinv].
  intros pipe [Hlo [Hhi _]]. cbn [canvas height]. num_lra.
Qed.

Lemma X10_pipes_on_canvas_witness :
  Forall pipeOnCanvas
    (pipesRef (run canvas [Start 0; Frame 2000 (num 0.4)] initial)).
Proof.
  apply X10_pipes_on_canvas.
  apply reachable_run; [constructor | reflexivity].
Defined.

Lemma leftToRight_filter keep pipes :
  leftToRight pipes -> leftToRight (filter keep pipes).
Proof.
  induction pipes as [| pipe rest IH]; cbn [filter leftToRight];
    [trivial |].
  intros [Hhead Hrest]. specialize (IH Hrest).
  destruct (keep pipe); [| exact IH].
  cbn [leftToRight]. split; [| exact IH].
  apply Forall_forall. intros other Hin. apply filter_In in Hin.
  rewrite Forall_forall in Hhead. now apply Hhead.
Qed.

Lemma leftToRight_scrolled pipes :
  leftToRight pipes -> leftToRight (map scrolled pipes).
Proof.
  induction pipes as [| pipe rest IH]; cbn [map leftToRight]; [trivial |].
  intros [Hhead Hrest]. split; [| now apply IH].
  apply Forall_map. eapply Forall_impl; [| exact Hhead].
  intros other Hlt. cbn beta in *.
  destruct (scrolled_fields pipe) as [-> _].
  destruct (scrolled_fields other) as [-> _]. num_lra.
Qed.

Lemma leftToRight_app pipes pipe :
  leftToRight pipes -> Forall (fun other => x other < x pipe) pipes ->
  leftToRight (pipes ++ [pipe]).
Proof.
  induction pipes as [| first rest IH]; cbn [app leftToRight].
  - intros _ _. split; [constructor | exact I].
  - intros [Hhead Hrest] Hall. inversion Hall as [| ? ? Hfirst Hall']; subst.
    split; [| now apply IH].
    apply Forall_app. split; [exact Hhead |]. now constructor.
Qed.

Lemma leftToRight_split before pipe after :
  leftToRight (before ++ pipe :: after) ->
  Forall (fun other => x pipe < x other) after.
Proof.
  induction before as [| first rest IH]; cbn [app leftToRight].
  - now intros [Hhead _].
  - intros [_ Hrest]. now apply IH.
Qed.

Lemma reachable_leftToRight cv g :
  reachable cv g ->
  leftToRight (pipesRef g)
  /\ Forall (fun pipe => x pipe < width cv) (pipesRef g).
Proof.
  induction 1 as [| g e Hreach [IHsorted IHwidth] Hvalid];
    [split; [exact I | constructor] |].
  assert (Hprune : forall pipes,
             leftToRight pipes ->
             Forall (fun pipe => x pipe <= width cv) pipes ->
             leftToRight (pruneAndScroll pipes)
             /\ Forall (fun pipe => x pipe < width cv) (pruneAndScroll pipes)).
  { intros pipes Hsorted Hwidth. split.
    - now apply leftToRight_scrolled, leftToRight_filter.
    - apply (pruneAndScroll_Forall _ (fun pipe => x pipe <= width cv));
        [| exact Hwidth].
      intros pipe Hle _. destruct (scrolled_fields pipe) as [-> _]. num_lra. }
  assert (Hweak : Forall (fun pipe => x pipe <= width cv) (pipesRef g)).
  { eapply Forall_impl; [| exact IHwidth]. intros pipe. apply Qclt_le_weak. }
  destruct (step_pipesRef cv g e)
    as [-> | [-> | [now [random [-> [Hstate [-> | ->]]]]]]].
  - now split.
  - split; [exact I | constructor].
  - now apply Hprune.
  - apply Hprune.
    + apply leftToRight_app; [exact IHsorted |]. exact IHwidth.
    + apply Forall_app. split; [exact Hweak |].
      constructor; [apply Qcle_refl | constructor].
Qed.

(** X11: in every state of a session the collection is in spawn order
    and that is the order on screen: each pipe is strictly left of the
    ones after it.  Hence the passed pipes come first: if a pipe is
    passed, so are all the pipes before it. *)
Theorem X11_pipes_left_to_right cv g :
  reachable cv g ->
  leftToRight (pipesRef g)
  /\ (forall before pipe after other,
      pipesRef g = before ++ pipe :: after -> In other after ->
      x pipe < x other /\ (passed other = true -> passed pipe = true)).
Proof.
  intros Hreach.
  destruct (reachable_leftToRight cv g Hreach) as [Hsorted _].
  split; [exact Hsorted |].
  intros before pipe after other Hpipes Hin.
  rewrite Hpipes in Hsorted. apply leftToRight_split in Hsorted.
  rewrite Forall_forall in Hsorted. specialize (Hsorted other Hin).
  split; [exact Hsorted |]. intros Hpassed.
  pose proof (reachable_passedBehind cv g Hreach) as Hbehind.
  pose proof (reachable_unpassedAhead cv g Hreach) as Hahead.
  rewrite Forall_forall in Hbehind, Hahead.
  assert (Hin_other : In other (pipesRef g)).
  { rewrite Hpipes. apply in_or_app. right. now right. }
  assert (Hin_pipe : In pipe (pipesRef g)).
  { rewrite Hpipes. apply in_or_app. right. now left. }
  specialize (Hbehind other Hin_other Hpassed).
  destruct (passed pipe) eqn:Hpipe; [reflexivity |].
  specialize (Hahead pipe Hin_pipe Hpipe). num_lra.
Qed.

Lemma X11_pipes_left_to_right_witness :
  let g := run canvas [Start 0; Frame 2000 (num 0.4); Frame 4000 (num 0.4)]
             initial in
  let dummy := generatePipe canvas (num 0) in
  leftToRight (pipesRef g)
  /\ x (nth 0 (pipesRef g) dummy) < x (nth 1 (pipesRef g) dummy).
Proof.
  intros g dummy.
  destruct (X11_pipes_left_to_right canvas g) as [Hsorted Horder].
  - apply reachable_run; [constructor | reflexivity].
  - split; [exact Hsorted |].
    assert (Hpipes : exists first second, pipesRef g = [first; second])
      by (do 2 eexists; vm_compute; reflexivity).
    destruct Hpipes as [first [second Hpipes]].
    rewrite Hpipes. cbn [nth].
    destruct (Horder [] first [second] second Hpipes) as [Hlt _];
      [left; reflexivity | exact Hlt].
Defined.

(** ** The collision test, in coordinates *)

(** X12: for a bird within the vertical bounds, [checkCollision] is true
    exactly when the pipe's left edge lies in [-5, 75], the window in
    which the 60 wide pipe meets the bird's box between 55 and 75, and
    the box, from [y + 5] to [y + 25], is not strictly inside the gap:
    its top at or above [topHeight] or its bottom at or below
    [topHeight + 170].  Velocity, rotation and the passed flag play no
    part. *)
Theorem X12_hit_window cv bird pipe :
  num 0 < y bird -> y bird + BIRD_SIZE < height cv ->
  (checkCollision cv bird pipe = true <->
   (num (-5) <= x pipe /\ x pipe <= num 75)
   /\ (y bird + num 5 <= topHeight pipe
       \/ topHeight pipe + num 170 <= y bird + num 25)).
Proof.
  intros Hup Hdown. rewrite checkCollision_iff.
  unfold boxesOverlap, axisOverlap, outOfBounds.
  cbn [birdBox topPipeBox bottomPipeBox top bottom left right].
  split.
  - intros [[[Hx1 Hx2] [Hy1 Hy2]] | [[[Hx1 Hx2] [Hy1 Hy2]] | [Hout | Hout]]].
    + split; [split; num_lra | left; num_lra].
    + split; [split; num_lra | right; num_lra].
    + exfalso. num_lra.
    + exfalso. num_lra.
  - intros [[Hx1 Hx2] [Htop | Hbottom]].
    + left. repeat split; num_lra.
    + right. left. repeat split; num_lra.
Qed.

Lemma X12_hit_window_witness :
  checkCollision canvas
    {| y := num 180; velocity := num 3; rotation := num 0 |}
    {| x := num 75; topHeight := num 200; passed := false |} = true.
Proof.
  apply X12_hit_window.
  - vm_compute. reflexivity.
  - vm_compute. reflexivity.
  - split; [split |]; [vm_compute; discriminate .. | left; vm_compute; discriminate].
Defined.

(** ** Positions in closed form *)

Lemma count_S n : count (S n) = count n + num 1.
Proof.
  unfold count. to_Q.
  rewrite Nat2Z.inj_succ, <- Z.add_1_r, inject_Z_plus. reflexivity.
Qed.

Lemma count_le n m : (n <= m)%nat -> count n <= count m.
Proof.
  intros Hle. unfold count. to_Q. rewrite <- Zle_Qle. lia.
Qed.

Lemma count_0 : count 0 = num 0.
Proof. apply Qc_is_canon. reflexivity. Qed.

Lemma pipeAfter_fields n pipe :
  x (pipeAfter n pipe) = x pipe - count n * PIPE_SPEED
  /\ topHeight (pipeAfter n pipe) = topHeight pipe.
Proof.
  induction n as [| n [IHx IHth]].
  - split; [| reflexivity]. cbn [pipeAfter Nat.iter nat_rect].
    rewrite count_0. num_lra.
  - change (pipeAfter (S n) pipe) with (scrolled (pipeAfter n pipe)).
    destruct (scrolled_fields (pipeAfter n pipe)) as [-> [-> _]].
    rewrite IHx, IHth, count_S. split; [num_lra | reflexivity].
Qed.

Lemma pipeAfter_flag n pipe :
  passed pipe = false ->
  (passed (pipeAfter n pipe) = true <->
   (0 < n)%nat /\ x (pipeAfter n pipe) + PIPE_WIDTH < num 50).
Proof.
  intros Hnew. destruct n as [| n].
  - cbn [pipeAfter Nat.iter nat_rect]. rewrite Hnew.
    split; [discriminate | intros [Hn _]; lia].
  - assert (Hbehind : passedBehind (pipeAfter (S n) pipe)).
    { clear - Hnew. induction (S n) as [| m IH].
      - intros Hp. cbn [pipeAfter Nat.iter nat_rect] in Hp. congruence.
      - now apply scrolled_passedBehind. }
    pose proof (scrolled_unpassedAhead (pipeAfter n pipe)) as Hahead.
    change (scrolled (pipeAfter n pipe)) with (pipeAfter (S n) pipe) in Hahead.
    unfold passedBehind, unpassedAhead in *. split.
    + intros Hp. split; [lia | now apply Hbehind].
    + intros [_ Hlt]. destruct (passed (pipeAfter (S n) pipe)); [reflexivity |].
      specialize (Hahead eq_refl). now apply Qcle_not_lt in Hahead.
Qed.

Lemma generatePipe_lifetime n random :
  (passed (pipeAfter n (generatePipe canvas random)) = true
   <-> (165 <= n)%nat)
  /\ (onScreen (pipeAfter n (generatePipe canvas random)) = true
      <-> (n < 184)%nat).
Proof.
  revert n random.
  intros n random.
  destruct (pipeAfter_fields n (generatePipe canvas random)) as [Hx _].
  cbn [generatePipe x canvas width] in Hx.
  assert (H164 : count 164 = num 164) by (apply Qc_is_canon; reflexivity).
  assert (H165 : count 165 = num 165) by (apply Qc_is_canon; reflexivity).
  assert (H183 : count 183 = num 183) by (apply Qc_is_canon; reflexivity).
  assert (H184 : count 184 = num 184) by (apply Qc_is_canon; reflexivity).
  split.
  - rewrite pipeAfter_flag by reflexivity. rewrite Hx. split.
    + intros [_ Hlt]. destruct (Nat.lt_ge_cases n 165) as [Hn | Hn];
        [| exact Hn].
      assert (Hle : count n <= count 164) by (apply count_le; lia).
      rewrite H164 in Hle. exfalso. num_lra.
    + intros Hn. split; [lia |].
      assert (Hle : count 165 <= count n) by now apply count_le.
      rewrite H165 in Hle. num_lra.
  - rewrite onScreen_iff, Hx. split.
    + intros Hlt. destruct (Nat.lt_ge_cases n 184) as [Hn | Hn];
        [exact Hn |].
      assert (Hle : count 184 <= count n) by now apply count_le.
      rewrite H184 in Hle. exfalso. num_lra.
    + intros Hn.
      assert (Hle : count n <= count 183) by (apply count_le; lia).
      rewrite H183 in Hle. num_lra.
Qed.


Lemma reachable_spawnedAgo g :
  reachable canvas g ->
  Forall (fun pipe => exists n, (1 <= n <= 184)%nat /\ spawnedAgo pipe n)
    (pipesRef g).
Proof.
  induction 1 as [| g e Hreach IH Hvalid]; [constructor |].
  assert (Hstep : forall pipe,
             (exists n, (n <= 184)%nat /\ spawnedAgo pipe n) ->
             onScreen pipe = true ->
             exists n, (1 <= n <= 184)%nat /\ spawnedAgo (scrolled pipe) n).
  { intros pipe [n [Hn [random [Hr0 [Hr1 ->]]]]] Hon.
    apply (generatePipe_lifetime n random) in Hon.
    exists (S n). split; [lia |]. exists random. now repeat split. }
  assert (Hweak : Forall (fun pipe =>
                            exists n, (n <= 184)%nat /\ spawnedAgo pipe n)
                    (pipesRef g)).
  { eapply Forall_impl; [| exact IH].
    intros pipe [n [Hn Hago]]. exists n. split; [lia | exact Hago]. }
  destruct (step_pipesRef canvas g e)
    as [-> | [-> | [now [random [-> [Hstate [-> | ->]]]]]]];
    [exact IH | constructor | |].
  - now apply (pruneAndScroll_Forall _ _ _ Hstep).
  - apply (pruneAndScroll_Forall _ _ _ Hstep), Forall_app.
    split; [exact Hweak |]. constructor; [| constructor].
    cbn [validEvent] in Hvalid. apply andb_true_iff in Hvalid.
    destruct Hvalid as [Hr0 Hr1]. num_reflect.
    exists 0%nat. split; [lia |]. exists random. now repeat split.
Qed.

(** X13: after [n] frames in the collection a pipe has moved left by
    2.5 [n] and kept its gap.  So on the 400 wide canvas every pipe,
    whatever its gap, is passed from its 165th frame on and not before,
    and the filter keeps it for 184 frames and no longer; and every pipe
    of a session is a spawned pipe between 1 and 184 frames old. *)
Theorem X13_pipe_lifetime :
  (forall n pipe,
      x (pipeAfter n pipe) = x pipe - count n * num 2.5
      /\ topHeight (pipeAfter n pipe) = topHeight pipe)
  /\ (forall n random,
      (passed (pipeAfter n (generatePipe canvas random)) = true
       <-> (165 <= n)%nat)
      /\ (onScreen (pipeAfter n (generatePipe canvas random)) = true
          <-> (n < 184)%nat))
  /\ (forall g pipe,
      reachable canvas g -> In pipe (pipesRef g) ->
      exists n, (1 <= n <= 184)%nat /\ spawnedAgo pipe n).
Proof.
  split; [apply pipeAfter_fields |]. split; [apply generatePipe_lifetime |].
  intros g pipe Hreach Hin.
  pose proof (reachable_spawnedAgo g Hreach) as Hall.
  rewrite Forall_forall in Hall. now apply Hall.
Qed.

Lemma X13_pipe_lifetime_witness :
  exists n,
    (1 <= n <= 184)%nat
    /\ spawnedAgo (scrolled (generatePipe canvas (num 0.4))) n.
Proof.
  destruct X13_pipe_lifetime as [_ [_ Hago]].
  apply (Hago (step canvas (step canvas initial (Start 0))
                 (Frame 2000 (num 0.4)))).
  - apply (reach_step canvas _ (Frame 2000 (num 0.4))); [| reflexivity].
    apply (reach_step canvas _ (Start 0)); [constructor | reflexivity].
  - left. reflexivity.
Defined.


Lemma frames_not_playing cv n now dt random g :
  gameState g <> playing -> run cv (frames n now dt random) g = g.
Proof.
  revert now. induction n as [| n IH]; intros now Hstate; [reflexivity |].
  cbn [frames run fold_left step].
  rewrite (gameLoop_not_playing _ _ _ _ Hstate). now apply IH.
Qed.









(** ** What the game state tells *)

Lemma checkCollision_same_y cv bird bird' pipe :
  y bird = y bird' ->
  checkCollision cv bird pipe = checkCollision cv bird' pipe.
Proof.
  intros Hy. unfold checkCollision, birdBox. now rewrite Hy.
Qed.

Lemma handleClick_consistent cv g :
  consistent cv g -> consistent cv (handleClick g).
Proof.
  unfold handleClick. destruct (gameState g) eqn:Hstate; trivial.
  intros [_ [Hplay _]]. specialize (Hplay Hstate).
  unfold consistent. cbn [gameState birdRef pipesRef score].
  split; [discriminate |]. split; [| discriminate].
  intros _. eapply Forall_impl; [| exact Hplay].
  intros pipe Hfree. cbn beta in *. rewrite <- Hfree.
  now apply checkCollision_same_y.
Qed.

Lemma gameLoop_consistent cv now random g :
  consistent cv g -> consistent cv (gameLoop cv now random g).
Proof.
  intros Hinv. destruct (gameState g) eqn:Hstate;
    try (now rewrite gameLoop_not_playing by congruence).
  rewrite (gameLoop_playing _ _ _ _ Hstate).
  unfold consistent. cbn [gameState birdRef pipesRef score].
  unfold frameCollides.
  destruct (existsb _ _) eqn:Hhit.
  - split; [discriminate |]. split; [discriminate |]. intros _.
    apply existsb_exists in Hhit. now apply Exists_exists.
  - split; [discriminate |]. split; [| discriminate]. intros _.
    apply Forall_forall. intros pipe Hin.
    destruct (checkCollision cv (updateBird (birdRef g)) pipe) eqn:Hpipe;
      [| reflexivity].
    assert (Htrue : existsb (checkCollision cv (updateBird (birdRef g)))
                      (map scrolled (keptPipes cv now random g)) = true).
    { apply existsb_exists. now exists pipe. }
    congruence.
Qed.

Lemma reachable_consistent cv g : reachable cv g -> consistent cv g.
Proof.
  induction 1 as [| g e Hreach IH Hvalid].
  - unfold consistent. cbn. repeat split; discriminate.
  - destruct e as [now random | | code | now |]; cbn [step].
    + now apply gameLoop_consistent.
    + now apply handleClick_consistent.
    + unfold handleKeyPress. destruct (String.eqb code "Space");
        [now apply handleClick_consistent | exact IH].
    + unfold consistent. cbn. split; [discriminate |].
      split; [constructor | discriminate].
    + exact IH.
Qed.

(** X16: in every state of a session the game state agrees with the
    scene: while playing the bird collides with no pipe of the
    collection, so with a pipe around it is strictly within the vertical
    bounds; after game over some pipe of the collection still collides
    with the bird; while idle there is no pipe, the bird is at rest at
    300 and the score is 0. *)
Theorem X16_state_matches_scene cv g :
  reachable cv g ->
  (gameState g = idle ->
   pipesRef g = [] /\ birdRef g = birdRef initial /\ score g = 0%Z)
  /\ (gameState g = playing ->
      (forall pipe, In pipe (pipesRef g) ->
                    checkCollision cv (birdRef g) pipe = false)
      /\ (pipesRef g <> [] ->
          num 0 < y (birdRef g)
          /\ y (birdRef g) + BIRD_SIZE < height cv))
  /\ (gameState g = gameOver ->
      exists pipe, In pipe (pipesRef g)
                   /\ checkCollision cv (birdRef g) pipe = true).
Proof.
  intros Hreach.
  destruct (reachable_consistent cv g Hreach) as [Hidle [Hplay Hover]].
  split; [exact Hidle |]. split.
  - intros Hstate. specialize (Hplay Hstate).
    rewrite Forall_forall in Hplay. split; [exact Hplay |].
    intros Hpipes. destruct (pipesRef g) as [| pipe rest]; [congruence |].
    specialize (Hplay pipe (or_introl eq_refl)).
    unfold checkCollision in Hplay. apply orb_false_iff in Hplay.
    destruct Hplay as [Hplay Hdown]. apply orb_false_iff in Hplay.
    destruct Hplay as [_ Hup]. num_reflect. now split.
  - intros Hstate. specialize (Hover Hstate). now apply Exists_exists.
Qed.

Lemma X16_state_matches_scene_witness :
  let g := run canvas [Start 0; Frame 2000 (num 0.4)] initial in
  num 0 < y (birdRef g) /\ y (birdRef g) + BIRD_SIZE < height canvas.
Proof.
  intros g.
  destruct (X16_state_matches_scene canvas g) as [_ [Hplay _]].
  - apply reachable_run; [constructor | reflexivity].
  - destruct Hplay as [_ Hbounds]; [reflexivity |].
    apply Hbounds. vm_compute. discriminate.
Defined.

(** ** The score and the passed pipes *)

Lemma passedCount_pruneAndScroll pipes :
  (passedCount (pruneAndScroll pipes)
   <= passedCount pipes
      + Z.of_nat (List.length (filter scores (filter onScreen pipes))))%Z.
Proof.
  unfold passedCount, pruneAndScroll.
  induction pipes as [| pipe rest IH]; cbn [filter map List.length]; [lia |].
  destruct (onScreen pipe); cbn [filter map List.length].
  - destruct (scrolled_fields pipe) as [_ [_ ->]].
    destruct (passed pipe), (scores pipe); cbn [orb List.length]; lia.
  - destruct (passed pipe); cbn [List.length]; lia.
Qed.

Lemma passedCount_spawn cv random pipes :
  passedCount (pipes ++ [generatePipe cv random]) = passedCount pipes.
Proof.
  unfold passedCount. rewrite filter_app. cbn [filter generatePipe passed].
  now rewrite app_nil_r.
Qed.

(** X17: in every state of a session the score and the high score are
    not negative, and the score is at least the number of passed pipes
    in the collection: every pipe shown as passed has been counted. *)
Theorem X17_score_counts_passed cv g :
  reachable cv g ->
  (0 <= score g)%Z /\ (0 <= highScore g)%Z
  /\ (passedCount (pipesRef g) <= score g)%Z.
Proof.
  induction 1 as [| g e Hreach [IHscore [IHhigh IHcount]] Hvalid].
  - cbn. lia.
  - destruct e as [now random | | code | now |]; cbn [step].
    + destruct (gameState g) eqn:Hstate;
        try (rewrite gameLoop_not_playing by congruence; now repeat split).
      rewrite (gameLoop_playing _ _ _ _ Hstate).
      cbn [score highScore pipesRef].
      unfold keptPipes.
      pose proof (passedCount_pruneAndScroll
                    (fst (spawnPipe cv now random (pipesRef g)
                            (lastPipeSpawnRef g)))) as Hprune.
      unfold pruneAndScroll in Hprune.
      assert (Hspawn : passedCount
                         (fst (spawnPipe cv now random (pipesRef g)
                                 (lastPipeSpawnRef g)))
                       = passedCount (pipesRef g)).
      { unfold spawnPipe. destruct (_ >? _)%Z; cbn [fst];
          [apply passedCount_spawn | reflexivity]. }
      split; [lia |]. split; [destruct (frameCollides _ _ _ _); lia | lia].
    + unfold handleClick. destruct (gameState g); now repeat split.
    + unfold handleKeyPress, handleClick.
      destruct (String.eqb code "Space"), (gameState g); now repeat split.
    + cbn. repeat split; [lia | exact IHhigh | lia].
    + now repeat split.
Qed.

Lemma X17_score_counts_passed_witness :
  (passedCount (pipesRef (run canvas [Start 0; Frame 2000 (num 0.4)] initial))
   <= score (run canvas [Start 0; Frame 2000 (num 0.4)] initial))%Z.
Proof.
  apply (X17_score_counts_passed canvas).
  apply reachable_run; [constructor | reflexivity].
Defined.

(** ** The page *)

Lemma pageReachable_hook cv p :
  pageReachable cv p -> reachable cv (hook p) /\ localMuted p = false.
Proof.
  induction 1 as [| p e Hreach [IH Hlocal] Hvalid Hoffered].
  - split; [constructor | reflexivity].
  - split; [now apply reach_step | exact Hlocal].
Qed.

(** X18: on the page, the icon of the mute button is [Volume2] in every
    state, muted or not, since the component never sets the flag it
    draws it from; an overlay, with its start button, is shown exactly
    when the game is not playing, so a run being played cannot be
    restarted and its score never goes down; the game-over overlay
    shows the score of the hook. *)
Theorem X18_page cv p :
  pageReachable cv p ->
  muteIcon (render p) = Volume2
  /\ (overlay (render p) = NoOverlay <-> gameState (hook p) = playing)
  /\ (gameState (hook p) = gameOver ->
      overlay (render p) = GameOverOverlay (score (hook p)))
  /\ (forall e,
      gameState (hook p) = playing -> offered p e = true ->
      (score (hook p) <= score (hook (pageStep cv p e)))%Z).
Proof.
  intros Hreach. destruct (pageReachable_hook cv p Hreach) as [_ Hlocal].
  unfold render. cbn [muteIcon overlay]. rewrite Hlocal.
  split; [reflexivity |]. split; [| split].
  - destruct (gameState (hook p)); split; congruence.
  - now intros ->.
  - intros e Hplay Hoffered. cbn [pageStep hook].
    apply step_score. unfold offered, render in Hoffered.
    cbn [overlay] in Hoffered. rewrite Hplay in Hoffered.
    now destruct e.
Qed.

Lemma X18_page_witness :
  let p := pageStep canvas
             (pageStep canvas (pageStep canvas initialPage ToggleMute)
                (Start 0))
             (Frame 2000 (num 0.4)) in
  isMuted (hook p) = true /\ muteIcon (render p) = Volume2
  /\ (score (hook p)
      <= score (hook (pageStep canvas p (Frame 2016 (num 0.4)))))%Z.
Proof.
  intros p.
  destruct (X18_page canvas p) as [Hicon [_ [_ Hscore]]].
  - repeat (apply page_step; [| reflexivity | reflexivity]).
    apply page_initial.
  - split; [reflexivity |]. split; [exact Hicon |].
    apply Hscore; reflexivity.
Defined.

(** ** Sound effects *)

Lemma forEachCues_count muted pipes :
  forEachCues muted pipes
  = if muted then []
    else repeat scoreCue (List.length (filter scores pipes)).
Proof.
  destruct muted.
  - induction pipes as [| pipe rest IH]; cbn [forEachCues]; [reflexivity |].
    rewrite IH. now destruct (snd (scrollPipe pipe)).
  - induction pipes as [| pipe rest IH]; cbn [forEachCues filter];
      [reflexivity |].
    rewrite IH. unfold scores.
    destruct (snd (scrollPipe pipe)); reflexivity.
Qed.

Lemma gameLoopCues_playing muted cv now random g :
  gameState g = playing ->
  gameLoopCues muted cv now random g
  = if muted then []
    else repeat scoreCue
           (List.length (filter scores (keptPipes cv now random g)))
         ++ (if frameCollides cv now random g then [hitCue] else []).
Proof.
  intros Hstate. unfold gameLoopCues, frameCollides, keptPipes.
  rewrite Hstate.
  destruct (spawnPipe cv now random (pipesRef g) (lastPipeSpawnRef g))
    as [spawned lastPipeSpawn].
  cbn [fst].
  pose proof (forEachPipe_pipes (filter onScreen spawned) (score g)) as Hp.
  destruct (forEachPipe (filter onScreen spawned) (score g))
    as [pipes pending].
  cbn [fst] in Hp. subst pipes. rewrite forEachCues_count.
  unfold playSound. destruct muted; cbn [negb]; [| reflexivity].
  now destruct (existsb _ _).
Qed.

(** X19: what a frame plays: with the sound on in its closure, one
    score cue per point the frame adds to the score, then the hit cue if
    and only if the frame ends the run; nothing with the sound off, and
    nothing outside the playing state.  A click plays the jump cue when
    the game is playing and not muted, and nothing otherwise. *)
Theorem X19_cues_of_a_frame cv now random g :
  (gameState g = playing ->
   let g' := gameLoop cv now random g in
   gameLoopCues false cv now random g
   = repeat scoreCue (Z.to_nat (score g' - score g))
     ++ match gameState g' with gameOver => [hitCue] | _ => [] end
   /\ gameLoopCues true cv now random g = []
   /\ handleClickCues g = if isMuted g then [] else [jumpCue])
  /\ (gameState g <> playing ->
      forall muted,
        gameLoopCues muted cv now random g = [] /\ handleClickCues g = []).
Proof.
  split.
  - intros Hstate g'. subst g'.
    rewrite !(gameLoopCues_playing _ _ _ _ _ Hstate).
    rewrite (gameLoop_playing _ _ _ _ Hstate). cbn [score gameState].
    split; [| split; [reflexivity |]].
    + replace (score g
               + Z.of_nat (List.length
                             (filter scores (keptPipes cv now random g)))
               - score g)%Z
        with (Z.of_nat (List.length
                          (filter scores (keptPipes cv now random g))))
        by lia.
      rewrite Nat2Z.id. now destruct (frameCollides cv now random g).
    + unfold handleClickCues, playSound. rewrite Hstate.
      now destruct (isMuted g).
  - intros Hstate muted. unfold gameLoopCues, handleClickCues.
    destruct (gameState g); [now split | congruence | now split].
Qed.

Lemma X19_cues_of_a_frame_witness :
  gameLoopCues false canvas 16 (num 0.5) (startGame 0 initial) = []
  /\ handleClickCues (startGame 0 initial) = [jumpCue]
  /\ handleClickCues initial = [].
Proof.
  destruct (X19_cues_of_a_frame canvas 16 (num 0.5) (startGame 0 initial))
    as [Hplay _].
  destruct (X19_cues_of_a_frame canvas 16 (num 0.5) initial) as [_ Hidle].
  destruct Hplay as [Hframe [_ Hclick]]; [reflexivity |].
  destruct (Hidle ltac:(discriminate) false) as [_ Hnone].
  split; [| split; [exact Hclick | exact Hnone]].
  rewrite Hframe. vm_compute. reflexivity.
Defined.

Lemma step_isMuted cv g e :
  isToggleMute e = false -> isMuted (step cv g e) = isMuted g.
Proof.
  intros Htoggle. destruct (isStart e) eqn:Hstart.
  - now destruct e.
  - now destruct (step_audio cv g e Hstart Htoggle).
Qed.

Lemma hookStep_in_step cv h e :
  isToggleMute e = false ->
  loopMuted h = isMuted (game h) ->
  loopMuted (hookStep cv h e) = isMuted (game (hookStep cv h e))
  /\ (isMuted (game h) = true -> played (hookStep cv h e) = played h).
Proof.
  intros Htoggle Hsync. cbn [hookStep game loopMuted played].
  pose proof (step_isMuted cv (game h) e Htoggle) as Hmuted.
  split.
  - destruct (depsChanged _ _); [reflexivity | congruence].
  - intros Hoff. rewrite Hsync, Hoff.
    replace (match e with
             | Frame now random => gameLoopCues true cv now random (game h)
             | Click => handleClickCues (game h)
             | KeyDown code => handleKeyPressCues code (game h)
             | _ => []
             end) with (@nil Cue); [apply app_nil_r |].
    destruct e as [now random | | code | now |]; try reflexivity.
    + destruct (gameState (game h)) eqn:Hstate;
        [unfold gameLoopCues; now rewrite Hstate
        | now rewrite (gameLoopCues_playing _ _ _ _ _ Hstate)
        | unfold gameLoopCues; now rewrite Hstate].
    + unfold handleClickCues, playSound. rewrite Hoff.
      now destruct (gameState (game h)).
    + unfold handleKeyPressCues, handleClickCues, playSound. rewrite Hoff.
      now destruct (String.eqb code "Space"), (gameState (game h)).
Qed.

(** X20: as long as the mute button is not pressed, the frame loop has
    the current mute flag; and if that flag is on, no frame, click or
    key plays any cue: a run started muted stays silent. *)
Theorem X20_muted_run_is_silent cv events h :
  forallb (fun e => negb (isToggleMute e)) events = true ->
  loopMuted h = isMuted (game h) ->
  loopMuted (hookRun cv events h) = isMuted (game (hookRun cv events h))
  /\ (isMuted (game h) = true ->
      played (hookRun cv events h) = played h
      /\ isMuted (game (hookRun cv events h)) = true).
Proof.
  revert h. induction events as [| e rest IH]; intros h Hquiet Hsync.
  - cbn. now repeat split.
  - cbn [forallb] in Hquiet. apply andb_true_iff in Hquiet.
    destruct Hquiet as [He Hrest]. apply negb_true_iff in He.
    destruct (hookStep_in_step cv h e He Hsync) as [Hsync' Hsilent].
    destruct (IH (hookStep cv h e) Hrest Hsync') as [IHsync IHsilent].
    cbn [hookRun fold_left]. fold (hookRun cv rest (hookStep cv h e)).
    split; [exact IHsync |]. intros Hoff.
    assert (Hoff' : isMuted (game (hookStep cv h e)) = true).
    { cbn [hookStep game]. now rewrite step_isMuted. }
    destruct (IHsilent Hoff') as [Hplayed Hstill].
    split; [| exact Hstill]. rewrite Hplayed. now apply Hsilent.
Qed.

Lemma X20_muted_run_is_silent_witness :
  let h := hookStep canvas (hookStep canvas initialHook ToggleMute) (Start 0) in
  played (hookRun canvas (Click :: frames 3 2000 16 (num 0.4)) h) = played h.
Proof.
  intros h.
  destruct (X20_muted_run_is_silent canvas
              (Click :: frames 3 2000 16 (num 0.4)) h) as [_ Hsilent].
  - reflexivity.
  - reflexivity.
  - now apply Hsilent.
Defined.

Lemma depsChanged_toggleMute g : depsChanged g (toggleMute g) = false.
Proof.
  unfold depsChanged. cbn [toggleMute gameState score].
  rewrite Z.eqb_refl. now destruct (gameState g).
Qed.

(** X21: the mute button reaches the frame loop late: pressing it, like
    every event that leaves the score and the game state as they are,
    leaves the flag of the loop as it was, so the frame after the press
    plays what it would have played without it; if the loop has the
    sound on and that frame ends the run, the hit cue is played although
    the sound has just been muted.  The loop takes the current flag with
    the first event that changes the score or the game state. *)
Theorem X21_mute_reaches_loop_late cv h :
  loopMuted (hookStep cv h ToggleMute) = loopMuted h
  /\ isMuted (game (hookStep cv h ToggleMute)) = negb (isMuted (game h))
  /\ (forall now random,
      played (hookStep cv (hookStep cv h ToggleMute) (Frame now random))
      = played (hookStep cv h (Frame now random)))
  /\ (forall now random,
      gameState (game h) = playing -> loopMuted h = false ->
      gameState (gameLoop cv now random (game h)) = gameOver ->
      exists points,
        played (hookStep cv (hookStep cv h ToggleMute) (Frame now random))
        = played h ++ repeat scoreCue points ++ [hitCue])
  /\ (forall e,
      depsChanged (game h) (step cv (game h) e) = false ->
      loopMuted (hookStep cv h e) = loopMuted h)
  /\ (forall e,
      depsChanged (game h) (step cv (game h) e) = true ->
      loopMuted (hookStep cv h e) = isMuted (game (hookStep cv h e))).
Proof.
  assert (Hflag : loopMuted (hookStep cv h ToggleMute) = loopMuted h).
  { cbn [hookStep loopMuted game step].
    now rewrite depsChanged_toggleMute. }
  assert (Hsame : forall now random,
             played (hookStep cv (hookStep cv h ToggleMute)
                       (Frame now random))
             = played (hookStep cv h (Frame now random))).
  { intros now random.
    assert (Hcues : gameLoopCues (loopMuted h) cv now random
                      (toggleMute (game h))
                    = gameLoopCues (loopMuted h) cv now random (game h))
      by reflexivity.
    unfold hookStep at 1 3. cbn [played].
    rewrite Hflag. unfold hookStep. cbn [game played step].
    now rewrite app_nil_r, Hcues. }
  split; [exact Hflag |]. split; [reflexivity |]. split; [exact Hsame |].
  split; [| split].
  - intros now random Hstate Hloop Hover.
    exists (List.length (filter scores (keptPipes cv now random (game h)))).
    rewrite Hsame. unfold hookStep. cbn [played]. rewrite Hloop.
    rewrite (gameLoopCues_playing _ _ _ _ _ Hstate).
    rewrite (gameLoop_playing _ _ _ _ Hstate) in Hover.
    cbn [gameState] in Hover.
    destruct (frameCollides cv now random (game h));
      [reflexivity | discriminate].
  - intros e Hdeps. cbn [hookStep loopMuted game]. now rewrite Hdeps.
  - intros e Hdeps. cbn [hookStep loopMuted game]. now rewrite Hdeps.
Qed.

Lemma X21_mute_reaches_loop_late_witness :
  let h := hookRun canvas fallingSession initialHook in
  let h' := hookStep canvas (hookStep canvas h ToggleMute)
              (Frame 2576 (num 0.4)) in
  isMuted (game (hookStep canvas h ToggleMute)) = true
  /\ (exists points, played h' = played h ++ repeat scoreCue points ++ [hitCue])
  /\ loopMuted h' = true.
Proof.
  intros h h'.
  destruct (X21_mute_reaches_loop_late canvas h)
    as [_ [Hmute [_ [Hhit _]]]].
  destruct (X21_mute_reaches_loop_late canvas (hookStep canvas h ToggleMute))
    as [_ [_ [_ [_ [_ Hfresh]]]]].
  assert (Hfacts : (isMuted (game h), gameState (game h), loopMuted h)
                   = (false, playing, false)) by (vm_compute; reflexivity).
  destruct (triple_inj _ _ _ _ _ _ Hfacts) as [Hon [Hstate Hloop]].
  assert (Hend : (gameState (gameLoop canvas 2576 (num 0.4) (game h)),
                  isMuted (game h'),
                  depsChanged (game (hookStep canvas h ToggleMute))
                    (step canvas (game (hookStep canvas h ToggleMute))
                       (Frame 2576 (num 0.4))))
                 = (gameOver, true, true)) by (vm_compute; reflexivity).
  destruct (triple_inj _ _ _ _ _ _ Hend) as [Hover [Hmuted Hdeps]].
  split; [rewrite Hmute, Hon; reflexivity |]. split.
  - exact (Hhit 2576%Z (num 0.4) Hstate Hloop Hover).
  - unfold h'. rewrite (Hfresh _ Hdeps). exact Hmuted.
Defined.
